(** * jQuery postMessage plugin (SkinnyJS): a shallow embedding

    The development follows [src/js/jquery.postMessage.js]:

    - [isOriginMatch], the allow-rule check of the receiving side;
    - [transverseLevel] and [serializeWindowReference], the search for a
      path through the window hierarchy;
    - [postMessage] ([$.postMessage]), the three-tier sender;
    - [receiveMessage] ([$.receiveMessage]), the listener closure it
      registers, and [receiveMessageHook] ([window.__receiveMessageHook]).

    JavaScript strings are modelled as [string], read as the UTF-8
    encoding of the JS string; octets that are not well-formed UTF-8
    stand for a string with a lone surrogate.  [undefined] is [None]
    wherever a value may be missing. *)

From Stdlib Require Import List String Ascii Bool Arith ZArith NArith Lia.
From Stdlib Require Import DecimalString DecimalN Permutation.
Import ListNotations.
Local Open Scope string_scope.

(** ** JavaScript values the plugin handles *)

Module JS.

(** An exception object: its message and the IE-specific [number]
    property the code inspects ([None] when the property is missing). *)
Record JsError := mkError { message : string; number : option Z }.

Definition Error (msg : string) : JsError := mkError msg None.

(** The outcome of running a piece of the program.  [OutOfFuel] is the
    model's stand-in for a computation that has not returned within the
    given number of nested calls. *)
Inductive Result (A : Type) : Type :=
| Return (a : A)
| Throw (e : JsError)
| OutOfFuel.
Arguments Return {A} a.
Arguments Throw {A} e.
Arguments OutOfFuel {A}.

(** A value in rule position ([allowedOriginOrFunction]).  A function is
    represented by the truthiness of what it returns on an origin (the
    origin may be [undefined]). *)
Inductive JsValue :=
| VUndefined
| VNull
| VBool (b : bool)
| VNumber (n : Z)
| VNaN
| VString (s : string)
| VFunction (f : option string -> bool)
| VObject.

(** [!v] is false. *)
Definition truthy (v : JsValue) : bool :=
  match v with
  | VUndefined | VNull | VNaN => false
  | VBool b => b
  | VNumber n => negb (n =? 0)%Z
  | VString s => negb (s =? "")
  | VFunction _ | VObject => true
  end.

Definition truthy_string (s : option string) : bool :=
  match s with
  | Some s => negb (s =? "")
  | None => false
  end.

(** [typeof v == "string"]. *)
Definition typeof_string (v : JsValue) : bool :=
  match v with VString _ => true | _ => false end.

(** [$.isFunction(v)]. *)
Definition isFunction (v : JsValue) : bool :=
  match v with VFunction _ => true | _ => false end.

(** [v === o] for [o] a string or [undefined]. *)
Definition strict_eq (v : JsValue) (o : option string) : bool :=
  match v, o with
  | VString p, Some s => p =? s
  | VUndefined, None => true
  | _, _ => false
  end.

(** [v(o)], read for its truthiness. *)
Definition call (v : JsValue) (o : option string) : bool :=
  match v with VFunction f => f o | _ => false end.

(** The [level] argument of [transverseLevel]: a number, [undefined] when
    the caller leaves it out, or [NaN]. *)
Inductive Level := LUndefined | LNaN | LNum (n : Z).

(** [level >= 4]: a comparison with [undefined] or [NaN] is false. *)
Definition level_ge (l : Level) (k : Z) : bool :=
  match l with
  | LNum n => (k <=? n)%Z
  | LUndefined | LNaN => false
  end.

(** [level + 1]: [undefined + 1] and [NaN + 1] are [NaN]. *)
Definition level_succ (l : Level) : Level :=
  match l with
  | LNum n => LNum (n + 1)
  | LUndefined | LNaN => LNaN
  end.

(** Number-to-string conversion of a non-negative integer. *)
Definition string_of_nat (n : nat) : string :=
  NilZero.string_of_uint (Nat.to_uint n).

Definition string_of_N (n : N) : string :=
  NilZero.string_of_uint (N.to_uint n).

End JS.
Import JS.

(** ** OriginMatcher: [isOriginMatch] (lines 92-107) *)

Definition isOriginMatch (originPatternOrFunction : JsValue)
                         (sourceOrigin : option string) : bool :=
  if typeof_string originPatternOrFunction
     && negb (strict_eq originPatternOrFunction sourceOrigin)
     && negb (strict_eq originPatternOrFunction (Some "*"))
  then false
  else if isFunction originPatternOrFunction
          && negb (call originPatternOrFunction sourceOrigin)
  then false
  else true.

(** ** WindowPathResolver (lines 117-245) *)

Module WindowPath.

(** A window handle; windows are only ever compared by identity. *)
Definition Handle := nat.

(** What the resolver reads of a window: its child frames in index
    order, [window.parent] and [window.opener] ([None] when the property
    is null or undefined; a top-level window is its own parent), and
    whether the object passes [instanceof Window] in the running script's
    realm.  [window.frames] is read through its index keys "0", "1", ...,
    which [for ... in] enumerates first and in ascending order; the
    named properties of the window object that the enumeration visits
    after them are left out, and property reads are taken not to throw,
    so the two [catch] blocks around the first loop never run. *)
Record Window := mkWindow {
  frames : list Handle;
  parent : option Handle;
  opener : option Handle;
  instanceofWindow : bool
}.

(** The window hierarchy: what each handle refers to. *)
Definition WindowGraph := Handle -> Window.

(** The target handed to [serializeWindowReference]: a window name or a
    live window. *)
Inductive Target :=
| TName (name : string)
| TWindow (w : Handle).

(** [ref && ref === target] for a possibly-null reference. *)
Definition refers_to (ref : option Handle) (target : Handle) : bool :=
  match ref with
  | Some h => Nat.eqb h target
  | None => false
  end.

(** [ref && ref !== window]. *)
Definition refers_elsewhere (ref : option Handle) (window : Handle) : bool :=
  match ref with
  | Some h => negb (Nat.eqb h window)
  | None => false
  end.

(** [if (ref)] for what [transverseLevel] returns: [false] ([None]) and
    the empty string are falsy. *)
Definition found (ref : option string) : bool := truthy_string ref.

(** Lines 123-139: the [for (var frame in window.frames)] loop, from key
    [frame] on; [first] is [window.frames[0]]. *)
Fixpoint directFrame (g : WindowGraph) (first target : Handle)
                     (fs : list Handle) (frame : nat) : option string :=
  match fs with
  | [] => None
  | f :: rest =>
      if instanceofWindow (g first) && Nat.eqb f target
      then Some ("f," ++ string_of_nat frame)
      else directFrame g first target rest (S frame)
  end.

(** Lines 119-148: the loop runs only when [window.frames.length > 0]. *)
Definition directFrames (g : WindowGraph) (window target : Handle)
  : option string :=
  match frames (g window) with
  | [] => None
  | first :: _ => directFrame g first target (frames (g window)) 0
  end.

(** Lines 170-177: the [for (var i = 0; ...)] loop from index [i] on;
    [recurse] is the recursive call at [level + 1]. *)
Fixpoint searchFrames (recurse : Handle -> Result (option string))
                      (fs : list Handle) (i : nat) : Result (option string) :=
  match fs with
  | [] => Return None
  | f :: rest =>
      match recurse f with
      | Return ref =>
          if found ref
          then Return (Some ("f," ++ string_of_nat i ++ "."
                               ++ match ref with Some r => r | None => "" end))
          else searchFrames recurse rest (S i)
      | Throw e => Throw e
      | OutOfFuel => OutOfFuel
      end
  end.

(** Lines 180-196: one of the two recursive steps through a single
    reference ([window.parent], then [window.opener]); [prefix] is what
    the code puts in front of the path it got back, [next] what follows
    when the step finds nothing. *)
Definition searchLink (recurse : Handle -> Result (option string))
                      (ref : option Handle) (window : Handle)
                      (prefix : string)
                      (next : Result (option string))
  : Result (option string) :=
  match ref with
  | Some h =>
      if negb (Nat.eqb h window)
      then match recurse h with
           | Return r =>
               if found r
               then Return (Some (prefix
                                    ++ match r with Some r => r | None => "" end))
               else next
           | Throw e => Throw e
           | OutOfFuel => OutOfFuel
           end
      else next
  | None => next
  end.

(** [transverseLevel(window, target, level)], lines 117-199.  [fuel]
    bounds the nesting of calls; a call that gets none is [OutOfFuel]. *)
Fixpoint transverseLevel (fuel : nat) (g : WindowGraph)
                         (window target : Handle) (level : Level)
  : Result (option string) :=
  match fuel with
  | O => OutOfFuel
  | S fuel' =>
      match directFrames g window target with
      | Some ref => Return (Some ref)
      | None =>
          if refers_to (parent (g window)) target then Return (Some "p")
          else if refers_to (opener (g window)) target then Return (Some "o")
          else if level_ge level 4 then Return None
          else
            let recurse h := transverseLevel fuel' g h target (level_succ level) in
            match searchFrames recurse (frames (g window)) 0 with
            | Return None =>
                searchLink recurse (parent (g window)) window "p."
                  (searchLink recurse (opener (g window)) window "o"
                     (Return None))
            | r => r
            end
      end
  end.

(** The two errors of [serializeWindowReference]. *)
Definition SelfReferenceError : JsError :=
  Error "Trying to postMessage to self. Pointlessly useless.".

Definition UnresolvableWindow : JsError :=
  Error "Couldn't serialize window reference".

(** [serializeWindowReference(currentWindow, targetWindow)], lines
    208-245.  The call to [transverseLevel] passes no [level]. *)
Definition serializeWindowReference (fuel : nat) (g : WindowGraph)
                                    (currentWindow : Handle)
                                    (targetWindow : Target)
  : Result string :=
  match targetWindow with
  | TName name => Return (":" ++ name)
  | TWindow target =>
      if Nat.eqb currentWindow target then Throw SelfReferenceError
      else if refers_elsewhere (parent (g currentWindow)) currentWindow
              && refers_to (parent (g currentWindow)) target
      then Return "p"
      else if refers_elsewhere (opener (g currentWindow)) currentWindow
              && refers_to (opener (g currentWindow)) target
      then Return "o"
      else
        match transverseLevel fuel g currentWindow target LUndefined with
        | Return ref =>
            match ref with
            | Some r => if found ref then Return r else Throw UnresolvableWindow
            | None => Throw UnresolvableWindow
            end
        | Throw e => Throw e
        | OutOfFuel => OutOfFuel
        end
  end.

End WindowPath.
Import WindowPath.

(** ** Built-in string functions the plugin calls *)

Module Uri.

Local Open Scope N_scope.

Definition code (c : ascii) : N := N_of_ascii c.

(** Value of a hexadecimal digit. *)
Definition hexDigit (c : ascii) : option N :=
  let n := code c in
  if (48 <=? n) && (n <=? 57) then Some (n - 48)
  else if (65 <=? n) && (n <=? 70) then Some (n - 55)
  else if (97 <=? n) && (n <=? 102) then Some (n - 87)
  else None.

(** Upper-case hexadecimal digit of a value below 16. *)
Definition hexChar (n : N) : ascii :=
  ascii_of_N (if n <? 10 then 48 + n else 55 + n).

(** The characters [encodeURIComponent] leaves alone: letters, digits
    and [- _ . ! ~ * ' ( )]. *)
Definition unreserved (c : ascii) : bool :=
  let n := code c in
  ((65 <=? n) && (n <=? 90)) || ((97 <=? n) && (n <=? 122))
  || ((48 <=? n) && (n <=? 57))
  || (n =? 45) || (n =? 95) || (n =? 46) || (n =? 33) || (n =? 126)
  || (n =? 42) || (n =? 39) || (n =? 40) || (n =? 41).

(** The text [encodeURIComponent] returns when it returns: every octet
    of the UTF-8 encoding that is not an unreserved character becomes
    [%XX].  The exception it throws on a string that has no such
    encoding is part of [encodeURIComponentOrThrow] below. *)
Fixpoint encodeURIComponent (s : string) : string :=
  match s with
  | EmptyString => EmptyString
  | String c rest =>
      if unreserved c then String c (encodeURIComponent rest)
      else String "%" (String (hexChar (code c / 16))
                         (String (hexChar (code c mod 16))
                            (encodeURIComponent rest)))
  end.

(** Number of leading one bits of an octet of 128 or more (5 stands for
    five or more). *)
Definition leadingOnes (b : N) : nat :=
  if b <? 192 then 1%nat
  else if b <? 224 then 2%nat
  else if b <? 240 then 3%nat
  else if b <? 248 then 4%nat
  else 5%nat.

Definition isContinuation (b : N) : bool := (128 <=? b) && (b <? 192).

(** The code point a lead octet and its continuation octets encode. *)
Definition codePoint (octets : list N) : N :=
  match octets with
  | [] => 0
  | lead :: conts =>
      fold_left (fun v b => v * 64 + (b - 128)) conts
                (lead - (256 - 2 ^ (8 - N.of_nat (List.length octets))))
  end.

(** The octets are the shortest encoding of a code point that is not a
    surrogate and not above U+10FFFF. *)
Definition validUtf8 (octets : list N) : bool :=
  let v := codePoint octets in
  match List.length octets with
  | 2%nat => 128 <=? v
  | 3%nat => (2048 <=? v) && negb ((55296 <=? v) && (v <=? 57343))
  | 4%nat => (65536 <=? v) && (v <=? 1114111)
  | _ => false
  end.

Definition bytes (octets : list N) : string :=
  string_of_list_ascii (map ascii_of_N octets).

Definition URIError : JsError := Error "URI malformed".

(** The string is well-formed UTF-8, that is, it stands for a JavaScript
    string without lone surrogates: scanning it with [need] continuation
    octets still due for the sequence begun with [octets]. *)
Fixpoint wellFormedFrom (s : string) (need : nat) (octets : list N) : bool :=
  match s with
  | EmptyString => match need with O => true | S _ => false end
  | String c rest =>
      match need with
      | O =>
          if code c <? 128 then wellFormedFrom rest 0 []
          else
            let n := leadingOnes (code c) in
            if Nat.eqb n 1 || Nat.ltb 4 n then false
            else wellFormedFrom rest (n - 1) [code c]
      | S more =>
          if isContinuation (code c) then
            match more with
            | O => validUtf8 (octets ++ [code c])
                   && wellFormedFrom rest 0 []
            | S _ => wellFormedFrom rest more (octets ++ [code c])
            end
          else false
      end
  end.

Definition wellFormed (s : string) : bool := wellFormedFrom s 0 [].

(** The call [encodeURIComponent(s)]: it throws a [URIError] on a
    string with a lone surrogate, that is, on octets that are not
    well-formed, and returns the escaped text otherwise. *)
Definition encodeURIComponentOrThrow (s : string) : Result string :=
  if wellFormed s then Return (encodeURIComponent s) else Throw URIError.

(** The decoding loop of [decodeURIComponent]: [need] continuation
    escapes are still due for the sequence begun with [octets]; [None]
    is a [URIError]. *)
Fixpoint decodeFrom (s : string) (need : nat) (octets : list N)
  : option string :=
  match s with
  | EmptyString => match need with O => Some EmptyString | S _ => None end
  | String c rest =>
      if (code c =? 37) then
        match rest with
        | String h1 (String h2 rest') =>
            match hexDigit h1, hexDigit h2 with
            | Some a, Some b =>
                let B := 16 * a + b in
                match need with
                | O =>
                    if B <? 128
                    then option_map (String (ascii_of_N B))
                                    (decodeFrom rest' 0 [])
                    else
                      let n := leadingOnes B in
                      if Nat.eqb n 1 || Nat.ltb 4 n then None
                      else decodeFrom rest' (n - 1) [B]
                | S more =>
                    if isContinuation B then
                      match more with
                      | O =>
                          if validUtf8 (octets ++ [B])
                          then option_map (append (bytes (octets ++ [B])))
                                          (decodeFrom rest' 0 [])
                          else None
                      | S _ => decodeFrom rest' more (octets ++ [B])
                      end
                    else None
                end
            | _, _ => None
            end
        | _ => None
        end
      else
        match need with
        | O => option_map (String c) (decodeFrom rest 0 [])
        | S _ => None
        end
  end.

(** [decodeURIComponent(s)]; [None] when it throws [URIError]. *)
Definition decodeURIComponent (s : string) : option string :=
  decodeFrom s 0 [].

(** Longest prefix of characters satisfying [p], and what follows. *)
Fixpoint span (p : ascii -> bool) (s : string) : string * string :=
  match s with
  | EmptyString => (EmptyString, EmptyString)
  | String c rest =>
      if p c then let (a, b) := span p rest in (String c a, b)
      else (EmptyString, s)
  end.

(** What [.*] leaves: the string from its first line terminator (LF,
    CR, U+2028, U+2029) on. *)
Fixpoint afterLine (s : string) : string :=
  match s with
  | EmptyString => EmptyString
  | String c rest =>
      if (code c =? 10) || (code c =? 13) then s
      else
        match rest with
        | String c1 (String c2 _) =>
            if (code c =? 226) && (code c1 =? 128)
               && ((code c2 =? 168) || (code c2 =? 169))
            then s
            else afterLine rest
        | _ => afterLine rest
        end
  end.

(** A match of [/([^:]+:\/\/[^\/]+).*/] starting at the head of [s]:
    the text of group 1 and what follows the whole match. *)
Definition matchDomain (s : string) : option (string * string) :=
  let (scheme, r1) := span (fun c => negb (code c =? 58)) s in
  match scheme, r1 with
  | String _ _, String _ (String s1 (String s2 r2)) =>
      if (code s1 =? 47) && (code s2 =? 47) then
        let (host, r3) := span (fun c => negb (code c =? 47)) r2 in
        match host with
        | String _ _ =>
            Some ((scheme ++ "://" ++ host)%string, afterLine r3)
        | EmptyString => None
        end
      else None
  | _, _ => None
  end.

(** [getDomainFromUrl(url)], lines 83-86: the leftmost match of the
    pattern is replaced by its group 1. *)
Fixpoint getDomainFromUrl (url : string) : string :=
  match matchDomain url with
  | Some (domain, rest) => (domain ++ rest)%string
  | None =>
      match url with
      | EmptyString => EmptyString
      | String c rest => String c (getDomainFromUrl rest)
      end
  end.

End Uri.
Import Uri.

(** ** MessageSender: [$.postMessage] (lines 254-334) *)

Module Sender.

(** What reading [targetWindow.__receiveMessageHook] and calling the
    result does: the read throws, the property is missing, or it is a
    function whose call returns ([None]) or throws. *)
Inductive HookAccess :=
| HookDenied
| HookMissing
| HookFunction (run : string -> string -> option JsError).

(** The browser as the sender sees it. *)
Record Browser := mkBrowser {
  hierarchy : WindowGraph;
  (** the global [window] *)
  self : Handle;
  (** [!!window.postMessage], read once when the plugin loads *)
  browserSupportsPostMessage : bool;
  (** [targetWindow.postMessage(message, targetHost)]: returns ([None])
      or throws *)
  nativePostMessage : Handle -> string -> string -> option JsError;
  receiveMessageHookOf : Handle -> HookAccess;
  (** [document.location.href] *)
  location_href : string;
  (** [+new Date()] *)
  now : N
}.

(** What a call of [$.postMessage] does to the outside, in order. *)
Inductive Effect :=
| NativePost (target : Handle) (message targetHost : string)
| HookCall (target : Handle) (message targetHost : string)
| IframeAppended (src : string).

(** The plugin's own state and the effects so far. *)
Record SenderState := mkSender {
  cacheBuster : N;
  effects : list Effect
}.

Definition MissingOrigin : JsError :=
  Error "targetHost argument was not supplied to jQuery.postMessage".

Definition MissingTarget : JsError := Error "No targetWindow specified".

(** The diagnostic code of IE's "No such interface supported". *)
Definition E_NOINTERFACE : Z := (-2147467262)%Z.

(** [ex.number != -2147467262]. *)
Definition otherFailure (ex : JsError) : bool :=
  match number ex with
  | Some n => negb (n =? E_NOINTERFACE)%Z
  | None => true
  end.

Definition record (e : Effect) (st : SenderState) : SenderState :=
  mkSender (cacheBuster st) (effects st ++ [e]).

Definition proxyPath : string := "/vp/JS-Lib/jQuery/plugins/postmessage.htm#".

(** Lines 311-333: the proxy fallback.  Every [+] of the [src]
    expression is a string concatenation, the timestamp and the counter
    included, since its leftmost operand is a string.  The message is
    encoded after the window reference is serialized and before the
    frame is appended and the counter incremented, so an exception of
    either leaves the state as it was. *)
Definition proxyFallback (fuel : nat) (b : Browser) (st : SenderState)
                         (message targetHost : string)
                         (targetWindow : Handle)
                         (targetWindowName : option string)
  : Result unit * SenderState :=
  let target :=
    match targetWindowName with
    | Some name => if truthy_string targetWindowName
                   then TName name else TWindow targetWindow
    | None => TWindow targetWindow
    end in
  match serializeWindowReference fuel (hierarchy b) (self b) target with
  | Return serializedWindowRef =>
      let thisDomain := getDomainFromUrl (location_href b) in
      match encodeURIComponentOrThrow message with
      | Return encoded =>
          let src := targetHost ++ proxyPath
                     ++ string_of_N (now b) ++ string_of_N (cacheBuster st)
                     ++ "&" ++ serializedWindowRef ++ "&" ++ thisDomain ++ "&"
                     ++ encoded in
          (Return tt,
           mkSender (cacheBuster st + 1) (effects st ++ [IframeAppended src]))
      | Throw e => (Throw e, st)
      | OutOfFuel => (OutOfFuel, st)
      end
  | Throw e => (Throw e, st)
  | OutOfFuel => (OutOfFuel, st)
  end.

(** Lines 298-309: the direct-call shortcut, then the fallback. *)
Definition directOrProxy (fuel : nat) (b : Browser) (st : SenderState)
                         (message targetHost : string)
                         (targetWindow : Handle)
                         (targetWindowName : option string)
  : Result unit * SenderState :=
  match receiveMessageHookOf b targetWindow with
  | HookFunction postMessageDirect =>
      let st' := record (HookCall targetWindow message targetHost) st in
      match postMessageDirect message targetHost with
      | None => (Return tt, st')
      | Some _ =>
          proxyFallback fuel b st' message targetHost targetWindow
                        targetWindowName
      end
  | HookMissing | HookDenied =>
      proxyFallback fuel b st message targetHost targetWindow
                    targetWindowName
  end.

(** [$.postMessage(message, targetHost, targetWindow, targetWindowName)].
    [targetHost] and [targetWindow] are [None] when the argument is
    missing. *)
Definition postMessage (fuel : nat) (b : Browser) (st : SenderState)
                       (message : string) (targetHost : option string)
                       (targetWindow : option Handle)
                       (targetWindowName : option string)
  : Result unit * SenderState :=
  match targetHost with
  | None => (Throw MissingOrigin, st)
  | Some host =>
      if negb (truthy_string targetHost) then (Throw MissingOrigin, st)
      else
        match targetWindow with
        | None => (Throw MissingTarget, st)
        | Some targetWindow =>
            let targetHost := getDomainFromUrl host in
            if browserSupportsPostMessage b then
              let st' := record (NativePost targetWindow message targetHost) st in
              match nativePostMessage b targetWindow message targetHost with
              | None => (Return tt, st')
              | Some ex =>
                  if otherFailure ex then (Throw ex, st')
                  else directOrProxy fuel b st' message targetHost
                                     targetWindow targetWindowName
              end
            else directOrProxy fuel b st message targetHost
                               targetWindow targetWindowName
        end
  end.

End Sender.
Import Sender.

(** ** MessageReceiver: [$.receiveMessage] and the delivery hook
       (lines 342-378) *)

Module Receiver.

(** A callback passed to [$.receiveMessage], known by its identity. *)
Definition Callback := nat.

(** The browser's message event. *)
Record NativeMessage := mkNative { n_data : string; n_origin : string }.

(** The jQuery event object handed to a listener: the native event it
    wraps, if any, and its own [data] and [origin] properties. *)
Record JQEvent := mkEvent {
  originalEvent : option NativeMessage;
  ev_data : option string;
  ev_origin : option string
}.

(** The object [{ 'data': data, 'origin': origin }] given to a callback. *)
Record Delivery := mkDelivery {
  data : option string;
  origin : option string
}.

(** One call of a callback. *)
Definition Invocation : Type := Callback * Delivery.

(** Line 358 and line 363: [event.originalEvent ? event.originalEvent.x
    : event.x]. *)
Definition ownData (event : JQEvent) : option string :=
  match originalEvent event with
  | Some e => Some (n_data e)
  | None => ev_data event
  end.

Definition ownOrigin (event : JQEvent) : option string :=
  match originalEvent event with
  | Some e => Some (n_origin e)
  | None => ev_origin event
  end.

(** Lines 356-364: the values reported to the callback. *)
Definition reportedData (event : JQEvent) (data : option string)
  : option string :=
  if negb (truthy_string data) then ownData event else data.

Definition reportedOrigin (event : JQEvent) (origin : option string)
  : option string :=
  if negb (truthy_string origin) then ownOrigin event else origin.

(** Line 366: the second argument of [isOriginMatch]; [origin] is the
    variable after line 363. *)
Definition validatedOrigin (event : JQEvent) (origin : option string)
  : option string :=
  match originalEvent event with
  | Some e => Some (n_origin e)
  | None => origin
  end.

(** Lines 354-369: the listener [function(event, data, origin)] that
    [$.receiveMessage(callback, allowedOriginOrFunction)] registers.
    [Some] is the call of [callback] it makes, [None] the result
    [false]. *)
Definition listener (callback : Callback) (allowedOriginOrFunction : JsValue)
                    (event : JQEvent) (data origin : option string)
  : option Invocation :=
  let data := reportedData event data in
  let origin := reportedOrigin event origin in
  if isOriginMatch allowedOriginOrFunction (validatedOrigin event origin)
  then Some (callback, mkDelivery data origin)
  else None.

(** The page's message registry: how many native listeners have been
    installed on [window], and the dispatch table, oldest entry first. *)
Record Page := mkPage {
  nativeListeners : nat;
  table : list (Callback * JsValue)
}.

Definition emptyPage : Page := mkPage 0 [].

(** Modelled from the spec: jQuery's [$(window).on('message', handler)],
    which is not part of the sources.  The first registration installs
    the single native listener; every registration adds its entry to the
    dispatch table. *)
Definition on_message (p : Page) (entry : Callback * JsValue) : Page :=
  mkPage (match table p with
          | [] => S (nativeListeners p)
          | _ :: _ => nativeListeners p
          end)
         (table p ++ [entry]).

Definition NoCallback : JsError := Error "No callback function specified".

(** [$.receiveMessage(callback, allowedOriginOrFunction)], lines
    342-370; [callback] is [None] when it is missing. *)
Definition receiveMessage (p : Page) (callback : option Callback)
                          (allowedOriginOrFunction : JsValue)
  : Result unit * Page :=
  match callback with
  | None => (Throw NoCallback, p)
  | Some callback =>
      let allowedOriginOrFunction :=
        if negb (truthy allowedOriginOrFunction) then VString "*"
        else allowedOriginOrFunction in
      (Return tt, on_message p (callback, allowedOriginOrFunction))
  end.

(** Calling every registered listener with the same arguments, oldest
    first, and collecting the callback calls made. *)
Fixpoint dispatch (entries : list (Callback * JsValue)) (event : JQEvent)
                  (data origin : option string) : list Invocation :=
  match entries with
  | [] => []
  | (callback, rule) :: rest =>
      match listener callback rule event data origin with
      | Some call => call :: dispatch rest event data origin
      | None => dispatch rest event data origin
      end
  end.

(** Modelled from the spec: the native listener jQuery installs, which
    is not part of the sources.  It wraps the browser's event and calls
    each registered listener with the event alone. *)
Definition nativeDelivery (p : Page) (m : NativeMessage) : list Invocation :=
  dispatch (table p) (mkEvent (Some m) None None) None None.

(** The call [$(window).trigger('message', data, origin)] of line 377.
    jQuery, which is not part of the sources, defines
    [.trigger(eventType, extraParameters)] with two parameters: a third
    argument is ignored.  Each registered listener is called with a
    fresh event that wraps no native event, followed by the string
    given as [extraParameters]; the listener's third parameter is left
    [undefined]. *)
Definition trigger_message (p : Page) (data ignored : option string)
  : list Invocation :=
  dispatch (table p) (mkEvent None None None) data None.

(** [window.__receiveMessageHook(message, origin)], lines 375-378. *)
Definition receiveMessageHook (p : Page) (message : string)
                              (origin : option string)
  : Result (list Invocation) :=
  match decodeURIComponent message with
  | Some decoded => Return (trigger_message p (Some decoded) origin)
  | None => Throw URIError
  end.

End Receiver.
Import Receiver.

(** ** Window hierarchies and paths used in the statements *)

Module Hierarchy.

(** [i] is the first index at which [target] occurs in [fs]. *)
Definition first_index (fs : list Handle) (target : Handle) (i : nat) : Prop :=
  nth_error fs i = Some target
  /\ forall j, j < i -> nth_error fs j <> Some target.

(** [window.frames[0] instanceof Window] holds. *)
Definition first_frame_is_window (g : WindowGraph) (window : Handle) : Prop :=
  match frames (g window) with
  | first :: _ => instanceofWindow (g first) = true
  | [] => False
  end.

(** A window whose opener is its own first child frame. *)
Definition opener_is_child : WindowGraph := fun h =>
  match h with
  | 0 => mkWindow [1] (Some 0) (Some 1) true
  | _ => mkWindow [] (Some 0) None true
  end.

(** One hop of a path through the hierarchy. *)
Inductive Hop :=
| FrameIndex (i : nat)
| Parent
| Opener.

(** The window a hop leads to, if there is one. *)
Definition hop (g : WindowGraph) (window : Handle) (h : Hop) : option Handle :=
  match h with
  | FrameIndex i => nth_error (frames (g window)) i
  | Parent => parent (g window)
  | Opener => opener (g window)
  end.

(** The window a path leads to. *)
Fixpoint follow (g : WindowGraph) (window : Handle) (path : list Hop)
  : option Handle :=
  match path with
  | [] => Some window
  | h :: rest =>
      match hop g window h with
      | Some next => follow g next rest
      | None => None
      end
  end.

(** How a single hop is written. *)
Definition hopString (h : Hop) : string :=
  match h with
  | FrameIndex i => "f," ++ string_of_nat i
  | Parent => "p"
  | Opener => "o"
  end.

(** The path grammar of the wire format: the hops joined with [.]. *)
Definition grammarString (path : list Hop) : string :=
  String.concat "." (map hopString path).

(** What lines 175, 185 and 194 put between a hop and the rest of the
    path. *)
Definition joint (h : Hop) : string :=
  match h with
  | FrameIndex _ | Parent => "."
  | Opener => ""
  end.

(** The string [transverseLevel] builds for a path. *)
Fixpoint pathString (path : list Hop) : string :=
  match path with
  | [] => ""
  | [h] => hopString h
  | h :: (_ :: _) as rest => hopString h ++ joint h ++ pathString rest
  end.

(** No opener hop is followed by another hop. *)
Fixpoint openerLast (path : list Hop) : bool :=
  match path with
  | [] => true
  | [h] => true
  | h :: (_ :: _) as rest =>
      match h with Opener => false | _ => openerLast rest end
  end.

(** The windows one hop away. *)
Definition neighbours (g : WindowGraph) (window : Handle) : list Handle :=
  frames (g window)
  ++ match parent (g window) with Some h => [h] | None => [] end
  ++ match opener (g window) with Some h => [h] | None => [] end.

(** The windows at most [k] hops away. *)
Fixpoint within (g : WindowGraph) (k : nat) (window : Handle) : list Handle :=
  match k with
  | O => [window]
  | S k' => window :: flat_map (within g k') (neighbours g window)
  end.

(** A page (window 0) with one iframe (window 1); the page was opened
    by window 2, which was opened by window 3, and so on up to window 7.
    The top-level windows are their own parents. *)
Definition popup_chain : WindowGraph := fun h =>
  match h with
  | 0 => mkWindow [1] (Some 0) (Some 2) true
  | 1 => mkWindow [] (Some 0) None true
  | 2 => mkWindow [] (Some 2) (Some 3) true
  | 3 => mkWindow [] (Some 3) (Some 4) true
  | 4 => mkWindow [] (Some 4) (Some 5) true
  | 5 => mkWindow [] (Some 5) (Some 6) true
  | 6 => mkWindow [] (Some 6) (Some 7) true
  | _ => mkWindow [] (Some h) None true
  end.

(** A popup (window 0) opened by an iframe (window 1) of a page
    (window 2). *)
Definition popup_of_frame : WindowGraph := fun h =>
  match h with
  | 0 => mkWindow [] (Some 0) (Some 1) true
  | 1 => mkWindow [] (Some 2) None true
  | _ => mkWindow [1] (Some 2) None true
  end.

(** A page (window 0) with three iframes (windows 1, 2 and 3). *)
Definition three_frames : WindowGraph := fun h =>
  match h with
  | 0 => mkWindow [1; 2; 3] (Some 0) None true
  | _ => mkWindow [] (Some 0) None true
  end.

(** A level that is not a number stays so and never reaches the bound. *)
Definition not_a_number (l : Level) : Prop :=
  match l with LNum _ => False | LUndefined | LNaN => True end.

End Hierarchy.
Import Hierarchy.

(** ** Senders used in the statements *)

Module Scenarios.

(** The native call is not made or fails with the known code, so that
    line 298 is reached. *)
Definition nativeFallsThrough (b : Browser) (target : Handle)
                              (message targetHost : string) : bool :=
  if browserSupportsPostMessage b then
    match nativePostMessage b target message targetHost with
    | Some ex => negb (otherFailure ex)
    | None => false
    end
  else true.

(** The hook cannot be read, is missing, or throws when called, so that
    line 315 is reached. *)
Definition hookFallsThrough (b : Browser) (target : Handle)
                            (message targetHost : string) : bool :=
  match receiveMessageHookOf b target with
  | HookFunction run =>
      match run message targetHost with
      | Some _ => true
      | None => false
      end
  | HookMissing | HookDenied => true
  end.

(** The page of [popup_chain] in a browser whose native [postMessage]
    works and where no window exposes a delivery hook. *)
Definition modern_browser : Browser :=
  mkBrowser popup_chain 0 true (fun _ _ _ => None) (fun _ => HookMissing)
            "http://www.bar.com/index.html" 1400000000000.

(** The same page in a browser without native [postMessage]. *)
Definition legacy_browser : Browser :=
  mkBrowser popup_chain 0 false (fun _ _ _ => None) (fun _ => HookMissing)
            "http://www.bar.com/index.html" 1400000000000.

(** The plugin has just been loaded and has done nothing yet. *)
Definition fresh : SenderState := mkSender 1 [].

End Scenarios.
Import Scenarios.

(** ** Pages used in the statements *)

Module Pages.

(** A series of calls of [$.receiveMessage], each with its two
    arguments. *)
Definition Registrations := list (option Callback * JsValue).

(** The page after the calls, made in order; a call that throws leaves
    the page as it was. *)
Definition receiveAll (p : Page) (calls : Registrations) : Page :=
  fold_left (fun p c => snd (receiveMessage p (fst c) (snd c))) calls p.

(** The rule a registration ends up with (lines 349-352). *)
Definition effectiveRule (rule : JsValue) : JsValue :=
  if negb (truthy rule) then VString "*" else rule.

(** The entries the calls ask for: one per call that names a callback. *)
Definition entriesOf (calls : Registrations) : list (Callback * JsValue) :=
  flat_map (fun c => match fst c with
                     | Some callback => [(callback, effectiveRule (snd c))]
                     | None => []
                     end) calls.

(** The callback calls a message from [origin] carrying [data] is due:
    one for each entry whose rule admits [origin], oldest entry first. *)
Definition matching (entries : list (Callback * JsValue))
                    (data origin : string) : list Invocation :=
  map (fun e => (fst e, mkDelivery (Some data) (Some origin)))
      (filter (fun e => isOriginMatch (snd e) (Some origin)) entries).

(** A page with one callback registered for every origin. *)
Definition open_page : Page :=
  snd (receiveMessage emptyPage (Some 0) VUndefined).

(** A page with one callback registered for a single origin. *)
Definition strict_page : Page :=
  snd (receiveMessage emptyPage (Some 0) (VString "http://www.foo.com")).

(** The registry's invariant: one native listener once there is an
    entry, none before. *)
Definition listener_installed_once (p : Page) : Prop :=
  nativeListeners p = match table p with [] => 0 | _ :: _ => 1 end.

End Pages.
Import Pages.

(** ** jQuery.delimitedString ([src/js/jquery.delimitedString.js]) *)

Module DelimitedString.

(** A plain object whose property values are strings: its own
    enumerable properties in creation order, each name once. *)
Definition JsObject := list (string * string).

(** [o[key]], [None] when [o] has no own property [key]. *)
Fixpoint lookup (key : string) (o : JsObject) : option string :=
  match o with
  | [] => None
  | (k, v) :: rest => if k =? key then Some v else lookup key rest
  end.

(** Creating or overwriting an own property: an existing property keeps
    its place. *)
Fixpoint assignOwn (o : JsObject) (key value : string) : JsObject :=
  match o with
  | [] => [(key, value)]
  | (k, v) :: rest =>
      if k =? key then (key, value) :: rest
      else (k, v) :: assignOwn rest key value
  end.

(** [o[key] = value] for a string [value].  The name [__proto__] is the
    prototype accessor, whose setter ignores a string. *)
Definition assign (o : JsObject) (key value : string) : JsObject :=
  if key =? "__proto__" then o else assignOwn o key value.

(** The number a property name stands for when it is an array index: a
    canonical decimal numeral below 2^32 - 1. *)
Definition arrayIndex (key : string) : option N :=
  match NilZero.uint_of_string key with
  | Some d =>
      let n := N.of_uint d in
      if (string_of_N n =? key) && (n <? 4294967295)%N then Some n else None
  | None => None
  end.

Fixpoint insertIndexed (n : N) (e : string * string)
                       (l : list (N * (string * string)))
  : list (N * (string * string)) :=
  match l with
  | [] => [(n, e)]
  | (m, e') :: rest =>
      if (n <=? m)%N then (n, e) :: l else (m, e') :: insertIndexed n e rest
  end.

(** The properties named by array indices, in ascending numeric order. *)
Fixpoint indexed (o : JsObject) : list (N * (string * string)) :=
  match o with
  | [] => []
  | e :: rest =>
      match arrayIndex (fst e) with
      | Some n => insertIndexed n e (indexed rest)
      | None => indexed rest
      end
  end.

(** The other properties, in creation order. *)
Definition named (o : JsObject) : JsObject :=
  filter (fun e => match arrayIndex (fst e) with
                   | Some _ => false
                   | None => true
                   end) o.

(** The order in which [for (var key in o)] visits the properties: array
    indices ascending, then the other names in creation order. *)
Definition forIn (o : JsObject) : JsObject :=
  (map snd (indexed o) ++ named o)%list.

(** [s.substring(0, n)] and [s.substring(n)]. *)
Fixpoint take (n : nat) (s : string) : string :=
  match n, s with
  | S n', String c rest => String c (take n' rest)
  | _, _ => EmptyString
  end.

Fixpoint drop (n : nat) (s : string) : string :=
  match n, s with
  | S n', String _ rest => drop n' rest
  | _, _ => s
  end.

(** [s.indexOf(sub)], [None] for -1. *)
Fixpoint indexOf (sub s : string) : option nat :=
  if prefix sub s then Some 0
  else
    match s with
    | EmptyString => None
    | String _ rest => option_map S (indexOf sub rest)
    end.

(** The characters of a string, one string each. *)
Fixpoint chars (s : string) : list string :=
  match s with
  | EmptyString => []
  | String c rest => String c EmptyString :: chars rest
  end.

(** Splitting at the occurrences of a non-empty separator, scanning from
    the left; [skip] characters of a separator just found are still to
    be passed over.  The head of the result is the piece in progress. *)
Fixpoint splitFrom (sep s : string) (skip : nat) : list string :=
  match s with
  | EmptyString => [EmptyString]
  | String c rest =>
      match skip with
      | S skip' => splitFrom sep rest skip'
      | O =>
          if prefix sep s
          then EmptyString :: splitFrom sep rest (String.length sep - 1)
          else
            match splitFrom sep rest 0 with
            | piece :: pieces => String c piece :: pieces
            | [] => [String c EmptyString]
            end
      end
  end.

(** [s.split(sep)] for a string separator; an empty separator splits
    into characters. *)
Definition split (sep s : string) : list string :=
  match sep with
  | EmptyString => chars s
  | String _ _ => splitFrom sep s 0
  end.

(** What calling a string as a function throws. *)
Definition NotAFunction : JsError :=
  Error "data.hasOwnProperty is not a function".

(** [$.encodeDelimitedString(data, itemDelimiter, pairDelimiter,
    keyEncoder, valueEncoder)], lines 12-33.  [data] is [None] when it is
    missing, an encoder is [None] when it is left out.  The loop calls
    [data.hasOwnProperty], which is the object's own property of that
    name when it has one, a string that cannot be called. *)
Definition encodeDelimitedString (data : option JsObject)
                                 (itemDelimiter pairDelimiter : string)
                                 (keyEncoder valueEncoder
                                    : option (string -> string))
  : Result string :=
  match data with
  | None => Return EmptyString
  | Some data =>
      let keyEncoder :=
        match keyEncoder with Some f => f | None => fun s => s end in
      let valueEncoder :=
        match valueEncoder with Some f => f | None => keyEncoder end in
      match forIn data with
      | [] => Return EmptyString
      | _ :: _ =>
          match lookup "hasOwnProperty" data with
          | Some _ => Throw NotAFunction
          | None =>
              Return
                (String.concat itemDelimiter
                   (map (fun kv => keyEncoder (fst kv) ++ pairDelimiter
                                   ++ valueEncoder (snd kv))
                        (forIn data)))
          end
      end
  end.

(** Lines 49-63: what one piece of the split string does to [ret].
    Positions are counted in octets; the piece is cut where the code
    units of the source cut it as long as the pair delimiter begins with
    an ASCII character. *)
Definition parsePair (pairDelimiter : string)
                     (keyDecoder valueDecoder : string -> string)
                     (ret : JsObject) (pair : string) : JsObject :=
  if Nat.ltb 0 (String.length pair) then
    match indexOf pairDelimiter pair with
    | Some delimIndex =>
        if Nat.ltb 0 delimIndex
           && Nat.leb delimIndex (String.length pair - 1)
        then assign ret (keyDecoder (take delimIndex pair))
                        (valueDecoder (drop (delimIndex + 1) pair))
        else ret
    | None => ret
    end
  else ret.

(** [$.parseDelimitedString(delimitedString, itemDelimiter,
    pairDelimiter, keyDecoder, valueDecoder)], lines 37-67. *)
Definition parseDelimitedString (delimitedString : option string)
                                (itemDelimiter pairDelimiter : string)
                                (keyDecoder valueDecoder
                                   : option (string -> string))
  : JsObject :=
  let keyDecoder :=
    match keyDecoder with Some f => f | None => fun s => s end in
  let valueDecoder :=
    match valueDecoder with Some f => f | None => keyDecoder end in
  match delimitedString with
  | Some s =>
      if truthy_string delimitedString
      then fold_left (parsePair pairDelimiter keyDecoder valueDecoder)
                     (split itemDelimiter s) []
      else []
  | None => []
  end.

End DelimitedString.
Import DelimitedString.

(** ** Notions used in the statements about strings and decoding *)

Module StringFacts.

(** The character occurs in the string. *)
Fixpoint occurs (c : ascii) (s : string) : bool :=
  match s with
  | EmptyString => false
  | String d rest => Ascii.eqb d c || occurs c rest
  end.

(** The string made of one character. *)
Definition char (c : ascii) : string := String c EmptyString.

(** A property that survives encoding with the delimiters [a] (between
    items) and [b] (between name and value): its name is neither of the
    two names the code cannot hold, the encoded name is non-empty and
    free of both delimiters, the encoded value is free of the item
    delimiter, and the decoders undo the encoders. *)
Definition encodable (a b : ascii)
                     (keyEncoder valueEncoder keyDecoder valueDecoder
                        : string -> string)
                     (kv : string * string) : Prop :=
  fst kv <> "__proto__" /\ fst kv <> "hasOwnProperty"
  /\ keyEncoder (fst kv) <> EmptyString
  /\ occurs a (keyEncoder (fst kv)) = false
  /\ occurs b (keyEncoder (fst kv)) = false
  /\ occurs a (valueEncoder (snd kv)) = false
  /\ keyDecoder (keyEncoder (fst kv)) = fst kv
  /\ valueDecoder (valueEncoder (snd kv)) = snd kv.

(** The function an optional encoder or decoder argument stands for
    (lines 19-20 and 39-40): itself, or else the fallback. *)
Definition orElse (f : option (string -> string)) (fallback : string -> string)
  : string -> string :=
  match f with Some f => f | None => fallback end.

Definition orIdentity (f : option (string -> string)) : string -> string :=
  orElse f (fun s => s).

(** The string holds no line break: no LF, no CR, and no octet 226, with
    which the encodings of U+2028 and U+2029 begin. *)
Definition oneLine (s : string) : bool :=
  forallb (fun c => negb ((code c =? 10) || (code c =? 13) || (code c =? 226))%N)
          (list_ascii_of_string s).

(** What lines 356-364 make of an argument that is missing or empty
    when the event has nothing of its own: [undefined]. *)
Definition nonEmpty (x : option string) : option string :=
  if truthy_string x then x else None.

End StringFacts.
Import StringFacts.

(** ** Notions used in the statements about the sender's effects *)

Module SenderFacts.

(** The effect is the creation of a proxy frame. *)
Definition isIframe (e : Effect) : bool :=
  match e with
  | IframeAppended _ => true
  | NativePost _ _ _ | HookCall _ _ _ => false
  end.

End SenderFacts.
Import SenderFacts.

(** * Properties *)

(** ** OriginMatcher *)

(** A string rule admits exactly the origin equal to it, unless it is
    the wildcard, which admits everything. *)
Lemma isOriginMatch_string (rule : string) (o : option string) :
  isOriginMatch (VString rule) o = true <-> o = Some rule \/ rule = "*".
Proof.
  unfold isOriginMatch; cbn.
  destruct (String.eqb_spec rule "*") as [->|Hs]; cbn.
  - rewrite andb_false_r. split; auto.
  - rewrite andb_true_r.
    destruct o as [s|]; cbn.
    + destruct (String.eqb_spec rule s) as [->|Hne]; cbn.
      * split; auto.
      * split; [discriminate|].
        intros [E|E]; [injection E as ->; contradiction | contradiction].
    + split; [discriminate|]. intros [E|E]; [discriminate | contradiction].
Qed.

Lemma isOriginMatch_wildcard (o : option string) :
  isOriginMatch (VString "*") o = true.
Proof. apply isOriginMatch_string; now right. Qed.

Lemma isOriginMatch_same (o : string) :
  isOriginMatch (VString o) (Some o) = true.
Proof. apply isOriginMatch_string; now left. Qed.

(** C7: the wildcard rule admits every origin string, a string rule
    admits the origin equal to it, and a rule that is an origin string,
    which the wildcard is not, rejects every origin string different
    from it. *)
Theorem isOriginMatch_string_rules (o1 o2 : string) :
  isOriginMatch (VString "*") (Some o2) = true
  /\ isOriginMatch (VString o1) (Some o1) = true
  /\ (o1 <> "*" -> o1 <> o2 -> isOriginMatch (VString o1) (Some o2) = false).
Proof.
  split; [apply isOriginMatch_wildcard|].
  split; [apply isOriginMatch_same|].
  intros Hstar Hne.
  destruct (isOriginMatch (VString o1) (Some o2)) eqn:E; [|reflexivity].
  apply isOriginMatch_string in E as [E|E]; [|contradiction].
  injection E as ->. contradiction.
Qed.

Lemma isOriginMatch_string_rules_witness :
  "http://www.foo.com" <> "*"
  /\ "http://www.foo.com" <> "http://www.bar.com"
  /\ isOriginMatch (VString "http://www.foo.com")
                   (Some "http://www.bar.com") = false.
Proof.
  split; [discriminate|]. split; [discriminate|].
  apply (isOriginMatch_string_rules "http://www.foo.com" "http://www.bar.com");
    discriminate.
Defined.

(** C10: a rule that is neither a string nor a function admits every
    origin. *)
Theorem isOriginMatch_other_rule (rule : JsValue) (o : option string) :
  typeof_string rule = false -> isFunction rule = false ->
  isOriginMatch rule o = true.
Proof.
  intros Hs Hf. unfold isOriginMatch. now rewrite Hs, Hf.
Qed.

Lemma isOriginMatch_other_rule_witness :
  isOriginMatch (VNumber 42) (Some "http://www.foo.com") = true
  /\ isOriginMatch VObject (Some "http://www.foo.com") = true.
Proof.
  split; apply isOriginMatch_other_rule; reflexivity.
Defined.

(** ** WindowPathResolver: the direct relations *)

Lemma directFrame_first g first target fs :
  instanceofWindow (g first) = true ->
  forall i k, first_index fs target i ->
  directFrame g first target fs k = Some ("f," ++ string_of_nat (k + i)).
Proof.
  intros Hw. induction fs as [|f rest IH]; intros i k [Hnth Hmin].
  - destruct i; discriminate.
  - cbn [directFrame]. rewrite Hw. cbn [andb].
    destruct i as [|i].
    + injection Hnth as ->. rewrite Nat.eqb_refl, Nat.add_0_r. reflexivity.
    + destruct (Nat.eqb_spec f target) as [->|Hne].
      * exfalso. apply (Hmin 0); [lia | reflexivity].
      * rewrite (IH i (S k)).
        -- now rewrite Nat.add_succ_r.
        -- split; [exact Hnth|].
           intros j Hj. apply (Hmin (S j)). lia.
Qed.

Lemma directFrames_first g window target i :
  first_frame_is_window g window ->
  first_index (frames (g window)) target i ->
  directFrames g window target = Some ("f," ++ string_of_nat i).
Proof.
  unfold first_frame_is_window, directFrames.
  destruct (frames (g window)) as [|first rest] eqn:E; [contradiction|].
  intros Hw Hi. now rewrite (directFrame_first g first target _ Hw i 0 Hi).
Qed.

Lemma directFrame_none g first target fs k :
  ~ In target fs -> directFrame g first target fs k = None.
Proof.
  revert k. induction fs as [|f rest IH]; intros k Hin; [reflexivity|].
  cbn [directFrame].
  destruct (Nat.eqb_spec f target) as [->|Hne].
  - exfalso. apply Hin. now left.
  - rewrite andb_false_r. apply IH. intros H. apply Hin. now right.
Qed.

Lemma directFrames_none g window target :
  ~ In target (frames (g window)) -> directFrames g window target = None.
Proof.
  unfold directFrames. intros Hin.
  destruct (frames (g window)) as [|first rest]; [reflexivity|].
  now apply directFrame_none.
Qed.

Lemma refers_to_true ref target :
  refers_to ref target = true <-> ref = Some target.
Proof.
  destruct ref as [h|]; cbn.
  - rewrite Nat.eqb_eq. split; [now intros ->|now intros [= ->]].
  - split; discriminate.
Qed.

(** In [transverseLevel] a child frame wins over parent and opener. *)
Lemma transverseLevel_frame_first fuel g window target i level :
  first_frame_is_window g window ->
  first_index (frames (g window)) target i ->
  transverseLevel (S fuel) g window target level
  = Return (Some ("f," ++ string_of_nat i)).
Proof.
  intros Hw Hi. cbn [transverseLevel].
  now rewrite (directFrames_first g window target i Hw Hi).
Qed.

(** In [transverseLevel] the parent is checked after the frames, the
    opener after the parent. *)
Lemma transverseLevel_parent fuel g window target level :
  directFrames g window target = None ->
  parent (g window) = Some target ->
  transverseLevel (S fuel) g window target level = Return (Some "p").
Proof.
  intros Hf Hp. cbn [transverseLevel]. rewrite Hf.
  now rewrite (proj2 (refers_to_true _ _) Hp).
Qed.

Lemma transverseLevel_opener fuel g window target level :
  directFrames g window target = None ->
  parent (g window) <> Some target ->
  opener (g window) = Some target ->
  transverseLevel (S fuel) g window target level = Return (Some "o").
Proof.
  intros Hf Hp Ho. cbn [transverseLevel]. rewrite Hf.
  destruct (refers_to (parent (g window)) target) eqn:E.
  - apply refers_to_true in E. contradiction.
  - now rewrite (proj2 (refers_to_true _ _) Ho).
Qed.

(** C4, as stated, fails: the target is child frame 0 of the source and
    also its opener, and the path returned is [o]. *)
Lemma resolve_frame_priority_counterexample :
  first_frame_is_window opener_is_child 0
  /\ first_index (frames (opener_is_child 0)) 1 0
  /\ opener (opener_is_child 0) = Some 1
  /\ serializeWindowReference 1 opener_is_child 0 (TWindow 1) = Return "o".
Proof.
  repeat split. intros j Hj. inversion Hj.
Qed.

(** C4, amended: for a target that is a child frame of the source (first
    at index [i], with [frames[0] instanceof Window]) and is not the
    source itself, [transverseLevel] returns [f,i] whatever the parent
    and the opener are, before any recursion; [serializeWindowReference]
    checks the parent and then the opener itself before it calls
    [transverseLevel], so it returns [p] when the target is also the
    parent, else [o] when it is also the opener, and [f,i] otherwise. *)
Theorem resolve_direct_relations fuel g source target i level :
  first_frame_is_window g source ->
  first_index (frames (g source)) target i ->
  source <> target ->
  transverseLevel (S fuel) g source target level
  = Return (Some ("f," ++ string_of_nat i))
  /\ serializeWindowReference (S fuel) g source (TWindow target)
     = Return (if refers_to (parent (g source)) target then "p"
               else if refers_to (opener (g source)) target then "o"
               else "f," ++ string_of_nat i).
Proof.
  intros Hw Hi Hne.
  pose proof (transverseLevel_frame_first fuel g source target i level Hw Hi) as Ht.
  split; [apply Ht|].
  unfold serializeWindowReference.
  destruct (Nat.eqb_spec source target) as [E|_]; [contradiction|].
  assert (Helse : forall ref, refers_to ref target = true ->
                              refers_elsewhere ref source = true).
  { intros ref Hr. apply refers_to_true in Hr. subst ref. cbn.
    destruct (Nat.eqb_spec target source) as [E|_]; [now subst|reflexivity]. }
  destruct (refers_to (parent (g source)) target) eqn:Ep.
  - now rewrite (Helse _ Ep).
  - rewrite andb_false_r.
    destruct (refers_to (opener (g source)) target) eqn:Eo.
    + now rewrite (Helse _ Eo).
    + rewrite andb_false_r.
      rewrite (transverseLevel_frame_first fuel g source target i LUndefined Hw Hi).
      reflexivity.
Qed.

Lemma resolve_direct_relations_witness :
  transverseLevel 1 opener_is_child 0 1 LUndefined = Return (Some "f,0")
  /\ serializeWindowReference 1 opener_is_child 0 (TWindow 1) = Return "o".
Proof.
  apply (resolve_direct_relations 0 opener_is_child 0 1 0 LUndefined).
  - reflexivity.
  - split; [reflexivity|]. intros j Hj. lia.
  - discriminate.
Defined.

(** ** WindowPathResolver: the depth bound *)

Lemma searchFrames_returns recurse fs :
  (forall h, exists r, recurse h = Return r) ->
  forall i, exists r, searchFrames recurse fs i = Return r.
Proof.
  intros Hrec. induction fs as [|f rest IH]; intros i; cbn [searchFrames].
  - eauto.
  - destruct (Hrec f) as [r ->]. destruct (found r); eauto.
Qed.

Lemma searchLink_returns recurse ref window prefix next :
  (forall h, exists r, recurse h = Return r) ->
  (exists r, next = Return r) ->
  exists r, searchLink recurse ref window prefix next = Return r.
Proof.
  intros Hrec Hnext. unfold searchLink.
  destruct ref as [h|]; [|assumption].
  destruct (negb (Nat.eqb h window)); [|assumption].
  destruct (Hrec h) as [r ->]. destruct (found r); eauto.
Qed.

(** Called with a number for [level], [transverseLevel] returns: the
    nesting of calls never exceeds [5 - level]. *)
Lemma transverseLevel_level_returns fuel :
  forall g window target n,
  (Z.max 1 (5 - n) <= Z.of_nat fuel)%Z ->
  exists r, transverseLevel fuel g window target (LNum n) = Return r.
Proof.
  induction fuel as [|fuel IH]; intros g window target n Hn; [lia|].
  cbn [transverseLevel].
  destruct (directFrames g window target); [eauto|].
  destruct (refers_to (parent (g window)) target); [eauto|].
  destruct (refers_to (opener (g window)) target); [eauto|].
  cbn [level_ge level_succ].
  destruct (Z.leb_spec 4 n) as [Hge|Hlt]; [eauto|].
  assert (Hrec : forall h, exists r,
             transverseLevel fuel g h target (LNum (n + 1)) = Return r).
  { intros h. apply IH. lia. }
  destruct (searchFrames_returns _ (frames (g window)) Hrec 0) as [r ->].
  destruct r as [r|]; [eauto|].
  apply searchLink_returns; [exact Hrec|].
  apply searchLink_returns; [exact Hrec|eauto].
Qed.

(** A level that is not a number stays so, and the guard of line 161
    never fires on it. *)
Lemma not_a_number_stays l :
  not_a_number l -> level_ge l 4 = false /\ not_a_number (level_succ l).
Proof. destruct l; cbn; auto; contradiction. Qed.

Section Cycle.

(** A window whose first child frame has no frames of its own, and a
    target that is directly related to neither of the two. *)
Variable g : WindowGraph.
Variables window child target : Handle.
Hypothesis first_child : hd_error (frames (g window)) = Some child.
Hypothesis child_is_leaf : frames (g child) = [].
Hypothesis child_of_window : parent (g child) = Some window.
Hypothesis child_differs : child <> window.
Hypothesis target_differs : window <> target.
Hypothesis not_a_frame : directFrames g window target = None.
Hypothesis not_the_parent : refers_to (parent (g window)) target = false.
Hypothesis not_the_opener : refers_to (opener (g window)) target = false.
Hypothesis not_the_childs_opener : refers_to (opener (g child)) target = false.

(** Without a number for [level], the search never leaves the cycle
    between the window and its child: from either of the two it has not
    returned after any number of nested calls. *)
Lemma transverseLevel_cycle fuel :
  forall level, not_a_number level ->
  transverseLevel fuel g window target level = OutOfFuel
  /\ transverseLevel fuel g child target level = OutOfFuel.
Proof.
  induction fuel as [|fuel IH]; intros level Hl; [split; reflexivity|].
  destruct (not_a_number_stays level Hl) as [Hge Hsucc].
  destruct (IH (level_succ level) Hsucc) as [IHw IHc].
  split; cbn [transverseLevel].
  - rewrite not_a_frame, not_the_parent, not_the_opener, Hge.
    destruct (frames (g window)) as [|f rest]; [discriminate|].
    injection first_child as ->. cbn [searchFrames]. now rewrite IHc.
  - unfold directFrames.
    rewrite child_is_leaf, child_of_window, not_the_childs_opener, Hge.
    cbn [refers_to searchFrames searchLink].
    destruct (Nat.eqb_spec window target) as [E|_]; [contradiction|].
    destruct (Nat.eqb_spec window child) as [E|_]; [now subst|].
    cbn [negb]. now rewrite IHw.
Qed.

End Cycle.

Lemma follow_within g path :
  forall window target k,
  follow g window path = Some target -> List.length path <= k ->
  In target (within g k window).
Proof.
  induction path as [|h rest IH]; intros window target k Hf Hk.
  - injection Hf as ->. destruct k; cbn; auto.
  - destruct k as [|k]; [cbn in Hk; lia|].
    cbn [follow] in Hf. destruct (hop g window h) as [next|] eqn:Eh; [|discriminate].
    cbn [within]. right. apply in_flat_map. exists next. split.
    + unfold neighbours. destruct h; cbn [hop] in Eh.
      * apply in_or_app. left. eapply nth_error_In; eauto.
      * rewrite Eh. apply in_or_app. right. apply in_or_app. left. now left.
      * rewrite Eh. apply in_or_app. right. apply in_or_app. right. now left.
    + apply IH; [exact Hf|cbn in Hk; lia].
Qed.

(** C1: in [popup_chain] window 7 is six opener hops from window 0 and
    no path of four hops or fewer leads to it.  A search started with
    level 0 stops at the bound and finds nothing, but the search
    [serializeWindowReference] starts has not returned after any number
    of nested calls: no error is raised. *)
Theorem serializeWindowReference_unbounded :
  follow popup_chain 0 [Opener; Opener; Opener; Opener; Opener; Opener] = Some 7
  /\ (forall path, List.length path <= 4 -> follow popup_chain 0 path <> Some 7)
  /\ transverseLevel 5 popup_chain 0 7 (LNum 0) = Return None
  /\ forall fuel,
       serializeWindowReference fuel popup_chain 0 (TWindow 7) = OutOfFuel.
Proof.
  split; [reflexivity|]. split; [|split; [reflexivity|]].
  - intros path Hlen Hf.
    pose proof (follow_within popup_chain path 0 7 4 Hf Hlen) as Hin.
    vm_compute in Hin. intuition discriminate.
  - intros fuel. unfold serializeWindowReference. cbn.
    destruct (transverseLevel_cycle popup_chain 0 1 7) with (fuel := fuel)
      (level := LUndefined) as [-> _];
      try reflexivity; try discriminate; exact I.
Qed.

(** ** WindowPathResolver: the path grammar *)

(** C3: in [popup_of_frame] the path from the popup to the page is an
    opener hop followed by a parent hop, which the grammar writes [o.p];
    it is serialized with no separator between the two. *)
Theorem serializeWindowReference_opener_then_parent :
  follow popup_of_frame 0 [Opener; Parent] = Some 2
  /\ grammarString [Opener; Parent] = "o.p"
  /\ forall fuel,
       serializeWindowReference (S (S fuel)) popup_of_frame 0 (TWindow 2)
       = Return "op".
Proof.
  repeat split.
Qed.

(** ** MessageSender *)

Lemma postMessage_missing_origin fuel b st message targetHost targetWindow name :
  truthy_string targetHost = false ->
  postMessage fuel b st message targetHost targetWindow name
  = (Throw MissingOrigin, st).
Proof.
  intros H. unfold postMessage. destruct targetHost; [|reflexivity].
  now rewrite H.
Qed.

Lemma postMessage_missing_target fuel b st message targetHost name :
  truthy_string targetHost = true ->
  postMessage fuel b st message targetHost None name
  = (Throw MissingTarget, st).
Proof.
  intros H. unfold postMessage. destruct targetHost; [|discriminate].
  now rewrite H.
Qed.

(** C9, as stated, fails: with the target window absent and the target
    host empty, the error is the one for the missing host. *)
Lemma postMessage_missing_both_counterexample :
  postMessage 0 modern_browser fresh "hello" (Some "") None None
  = (Throw MissingOrigin, fresh)
  /\ MissingOrigin <> MissingTarget.
Proof. split; [reflexivity | discriminate]. Qed.

(** C9, amended: [$.postMessage] throws [MissingOrigin] whenever
    [targetHost] is empty or missing, and [MissingTarget] whenever
    [targetHost] is non-empty and [targetWindow] is absent; in both cases
    nothing has been attempted and the plugin's state is unchanged. *)
Theorem postMessage_argument_errors fuel b st message targetHost targetWindow name :
  (truthy_string targetHost = false ->
   postMessage fuel b st message targetHost targetWindow name
   = (Throw MissingOrigin, st))
  /\ (truthy_string targetHost = true -> targetWindow = None ->
      postMessage fuel b st message targetHost targetWindow name
      = (Throw MissingTarget, st)).
Proof.
  split.
  - apply postMessage_missing_origin.
  - intros H ->. now apply postMessage_missing_target.
Qed.

Lemma postMessage_argument_errors_witness :
  postMessage 0 modern_browser fresh "hello" None (Some 7) None
  = (Throw MissingOrigin, fresh)
  /\ postMessage 0 modern_browser fresh "hello" (Some "http://www.foo.com")
                 None None
     = (Throw MissingTarget, fresh).
Proof.
  split.
  - apply (postMessage_argument_errors 0 modern_browser fresh "hello"
             None (Some 7) None). reflexivity.
  - apply (postMessage_argument_errors 0 modern_browser fresh "hello"
             (Some "http://www.foo.com") None None); reflexivity.
Defined.

Lemma proxyFallback_self fuel b st message targetHost name :
  truthy_string name = false ->
  proxyFallback fuel b st message targetHost (self b) name
  = (Throw SelfReferenceError, st).
Proof.
  intros Hn. unfold proxyFallback.
  assert (E : match name with
              | Some n => if truthy_string name then TName n
                          else TWindow (self b)
              | None => TWindow (self b)
              end = TWindow (self b)).
  { destruct name; [now rewrite Hn | reflexivity]. }
  rewrite E. cbn [serializeWindowReference]. now rewrite Nat.eqb_refl.
Qed.

(** C2, as stated, fails: where the native [postMessage] works, sending
    to the sending window itself returns normally. *)
Lemma postMessage_self_counterexample :
  self modern_browser = 0
  /\ postMessage 1 modern_browser fresh "hello" (Some "http://www.bar.com")
                 (Some 0) None
     = (Return tt,
        mkSender 1 [NativePost 0 "hello" "http://www.bar.com"]).
Proof. split; reflexivity. Qed.

(** C2, amended: with the sending window as target and a non-empty
    target host, [$.postMessage] throws [SelfReferenceError] when the
    proxy fallback is reached (the native call is unavailable or fails
    with the known code, and the delivery hook is missing, unreadable or
    throws) and no window name is given; it returns normally when the
    native call succeeds or when the hook call returns. *)
Theorem postMessage_self fuel b st message host name :
  truthy_string (Some host) = true ->
  let send := postMessage fuel b st message (Some host) (Some (self b)) name in
  let targetHost := getDomainFromUrl host in
  (nativeFallsThrough b (self b) message targetHost = true ->
   hookFallsThrough b (self b) message targetHost = true ->
   truthy_string name = false ->
   fst send = Throw SelfReferenceError)
  /\ (browserSupportsPostMessage b = true ->
      nativePostMessage b (self b) message targetHost = None ->
      send = (Return tt, record (NativePost (self b) message targetHost) st))
  /\ (nativeFallsThrough b (self b) message targetHost = true ->
      hookFallsThrough b (self b) message targetHost = false ->
      fst send = Return tt).
Proof.
  intros Hhost send targetHost. subst send targetHost.
  unfold postMessage, nativeFallsThrough, hookFallsThrough, directOrProxy.
  rewrite Hhost. cbn [negb].
  set (targetHost := getDomainFromUrl host).
  repeat split.
  - intros Hn Hh Hname.
    destruct (browserSupportsPostMessage b);
      [destruct (nativePostMessage b (self b) message targetHost) as [ex|];
       [destruct (otherFailure ex)|]|]; try discriminate;
      (destruct (receiveMessageHookOf b (self b)) as [| |run];
       [| |destruct (run message targetHost); [|discriminate]];
       now rewrite proxyFallback_self).
  - intros Hs Hnat. now rewrite Hs, Hnat.
  - intros Hn Hh.
    destruct (browserSupportsPostMessage b);
      [destruct (nativePostMessage b (self b) message targetHost) as [ex|];
       [destruct (otherFailure ex)|]|]; try discriminate;
      (destruct (receiveMessageHookOf b (self b)) as [| |run];
       try discriminate;
       destruct (run message targetHost); [discriminate|reflexivity]).
Qed.

Lemma postMessage_self_witness :
  fst (postMessage 1 legacy_browser fresh "hello" (Some "http://www.bar.com")
                   (Some (self legacy_browser)) None)
  = Throw SelfReferenceError.
Proof.
  apply (postMessage_self 1 legacy_browser fresh "hello"
           "http://www.bar.com" None); reflexivity.
Defined.

(** ** MessageReceiver: registration *)

Lemma receiveAll_table calls :
  forall p, table (receiveAll p calls) = (table p ++ entriesOf calls)%list.
Proof.
  induction calls as [|[callback rule] rest IH]; intros p; cbn.
  - now rewrite app_nil_r.
  - destruct callback as [cb|]; cbn.
    + unfold receiveAll in IH. rewrite IH. cbn. now rewrite <- app_assoc.
    + apply IH.
Qed.

Lemma on_message_invariant p entry :
  listener_installed_once p -> listener_installed_once (on_message p entry).
Proof.
  unfold listener_installed_once, on_message. intros H. cbn.
  destruct (table p); cbn in *; now rewrite ?H.
Qed.

Lemma receiveAll_invariant calls :
  forall p, listener_installed_once p ->
            listener_installed_once (receiveAll p calls).
Proof.
  induction calls as [|[callback rule] rest IH]; intros p Hp; cbn; [exact Hp|].
  apply IH. destruct callback; cbn; [now apply on_message_invariant|exact Hp].
Qed.

Lemma dispatch_native entries m :
  dispatch entries (mkEvent (Some m) None None) None None
  = matching entries (n_data m) (n_origin m).
Proof.
  unfold matching.
  induction entries as [|[callback rule] rest IH]; [reflexivity|].
  cbn [dispatch filter snd]. unfold listener. cbn.
  destruct (isOriginMatch rule (Some (n_origin m))); cbn; now rewrite IH.
Qed.

(** C5: however many times [$.receiveMessage] is called on a fresh page,
    at most one native listener is installed; the dispatch table holds
    exactly one entry per call that names a callback, in the order of
    the calls; and a message from the browser calls the callback of every
    entry whose rule admits its origin, with the message's data and
    origin. *)
Theorem receiveMessage_single_listener (calls : Registrations) (m : NativeMessage) :
  nativeListeners (receiveAll emptyPage calls) <= 1
  /\ table (receiveAll emptyPage calls) = entriesOf calls
  /\ nativeDelivery (receiveAll emptyPage calls) m
     = matching (entriesOf calls) (n_data m) (n_origin m).
Proof.
  pose proof (receiveAll_invariant calls emptyPage eq_refl) as Hinv.
  pose proof (receiveAll_table calls emptyPage) as Htab. cbn in Htab.
  split; [|split].
  - unfold listener_installed_once in Hinv. rewrite Hinv.
    destruct (table (receiveAll emptyPage calls)); lia.
  - exact Htab.
  - unfold nativeDelivery. now rewrite dispatch_native, Htab.
Qed.

(** ** MessageReceiver: validated and reported origin *)

(** C8, as stated, fails: for an event that wraps no native event and
    has no origin of its own (the kind the delivery hook triggers), the
    rule is checked against the origin the caller supplied, and the
    callback registered for that origin is called. *)
Lemma validated_origin_counterexample :
  ownOrigin (mkEvent None None None) = None
  /\ validatedOrigin (mkEvent None None None)
       (reportedOrigin (mkEvent None None None) (Some "http://www.foo.com"))
     = Some "http://www.foo.com"
  /\ listener 0 (VString "http://www.foo.com") (mkEvent None None None)
              (Some "hello") (Some "http://www.foo.com")
     = Some (0, mkDelivery (Some "hello") (Some "http://www.foo.com")).
Proof. repeat split. Qed.

(** C8, amended: when the event wraps a native event, the rule is
    checked against the native event's origin, whatever origin the
    caller supplied and whatever origin is reported to the callback;
    when it wraps none, the rule is checked against the very origin that
    is reported to the callback (the caller's, if non-empty, else the
    event's own). *)
Theorem validated_origin callback rule event data origin :
  listener callback rule event data origin
  = (if isOriginMatch rule (validatedOrigin event (reportedOrigin event origin))
     then Some (callback, mkDelivery (reportedData event data)
                                     (reportedOrigin event origin))
     else None)
  /\ (originalEvent event <> None ->
      validatedOrigin event (reportedOrigin event origin) = ownOrigin event)
  /\ (originalEvent event = None ->
      validatedOrigin event (reportedOrigin event origin)
      = reportedOrigin event origin).
Proof.
  split; [reflexivity|]. unfold validatedOrigin, ownOrigin.
  split; intros H.
  - destruct (originalEvent event); [reflexivity|contradiction].
  - now rewrite H.
Qed.

Lemma validated_origin_witness :
  validatedOrigin (mkEvent (Some (mkNative "hello" "http://www.foo.com")) None None)
    (reportedOrigin (mkEvent (Some (mkNative "hello" "http://www.foo.com")) None None)
                    (Some "http://www.bar.com"))
  = Some "http://www.foo.com".
Proof.
  apply (validated_origin 0 VUndefined
           (mkEvent (Some (mkNative "hello" "http://www.foo.com")) None None)
           None (Some "http://www.bar.com")).
  discriminate.
Defined.

(** ** MessageReceiver: the delivery hook *)

(** C6: the hook does not deliver the event the native listener
    delivers.  For the message [hello] from [http://www.foo.com] the
    native listener calls the callback registered for that origin, with
    that data and that origin; the hook, given the same message and
    origin, calls no callback on that page, and on a page whose callback
    admits every origin it calls it with the data and no origin.
    Whatever origin the hook is given, it does what it does when given
    none; and the data it hands on is the decoded message, which is not
    the message when that holds an escape. *)
Theorem receiveMessageHook_drops_origin :
  nativeDelivery strict_page (mkNative "hello" "http://www.foo.com")
  = [(0, mkDelivery (Some "hello") (Some "http://www.foo.com"))]
  /\ receiveMessageHook strict_page "hello" (Some "http://www.foo.com")
     = Return []
  /\ receiveMessageHook open_page "hello" (Some "http://www.foo.com")
     = Return [(0, mkDelivery (Some "hello") None)]
  /\ (forall p message origin,
        receiveMessageHook p message origin
        = receiveMessageHook p message None)
  /\ receiveMessageHook open_page "100%25" (Some "http://www.foo.com")
     = Return [(0, mkDelivery (Some "100%") None)].
Proof.
  split; [reflexivity|]. split; [reflexivity|]. split; [reflexivity|].
  split; [|reflexivity].
  intros p message origin. reflexivity.
Qed.

(** ** WindowPathResolver: the path returned leads to the target *)

Lemma hopString_nonempty h : hopString h <> "".
Proof. destruct h; discriminate. Qed.

Lemma pathString_cons h rest :
  rest <> [] -> pathString (h :: rest) = hopString h ++ joint h ++ pathString rest.
Proof. destruct rest; [contradiction|reflexivity]. Qed.

Lemma directFrame_sound g first target fs :
  forall k ref, directFrame g first target fs k = Some ref ->
  exists i, nth_error fs i = Some target
            /\ ref = hopString (FrameIndex (k + i)).
Proof.
  induction fs as [|f rest IH]; intros k ref H; [discriminate|].
  cbn [directFrame] in H.
  destruct (instanceofWindow (g first) && Nat.eqb f target) eqn:E.
  - apply andb_true_iff in E as [_ E]. apply Nat.eqb_eq in E. subst f.
    injection H as <-. exists 0. now rewrite Nat.add_0_r.
  - destruct (IH _ _ H) as (i & Hi & ->).
    exists (S i). now rewrite Nat.add_succ_r.
Qed.

Lemma searchFrames_sound recurse fs :
  forall i ref, searchFrames recurse fs i = Return (Some ref) ->
  exists j f r, nth_error fs j = Some f
                /\ recurse f = Return (Some r) /\ r <> ""
                /\ ref = hopString (FrameIndex (i + j)) ++ "." ++ r.
Proof.
  induction fs as [|f rest IH]; intros i ref H; [discriminate|].
  cbn [searchFrames] in H.
  destruct (recurse f) as [r| |] eqn:Er; try discriminate.
  destruct (found r) eqn:Ef.
  - destruct r as [r|]; [|discriminate]. injection H as <-.
    exists 0, f, r. rewrite Nat.add_0_r. repeat split; auto.
    intros ->. discriminate.
  - destruct (IH _ _ H) as (j & f' & r' & Hj & Hr & Hne & ->).
    exists (S j), f', r'. now rewrite Nat.add_succ_r.
Qed.

Lemma searchLink_sound recurse ref window prefix next s :
  searchLink recurse ref window prefix next = Return (Some s) ->
  (exists h r, ref = Some h /\ recurse h = Return (Some r) /\ r <> ""
               /\ s = prefix ++ r)
  \/ next = Return (Some s).
Proof.
  unfold searchLink. destruct ref as [h|]; [|now right].
  destruct (negb (Nat.eqb h window)); [|now right].
  destruct (recurse h) as [r| |] eqn:Er; try discriminate.
  destruct (found r) eqn:Ef; [|now right].
  destruct r as [r|]; [|discriminate]. intros [= <-]. left.
  exists h, r. repeat split; auto. intros ->. discriminate.
Qed.

Lemma pathString_nonempty path : path <> [] -> pathString path <> "".
Proof.
  destruct path as [|h [|h' rest]]; [contradiction| |]; intros _.
  - apply hopString_nonempty.
  - cbn [pathString]. destruct h; discriminate.
Qed.

(** Whatever string [transverseLevel] returns is the string of a path
    that leads from the window to the target. *)
Lemma transverseLevel_sound fuel :
  forall g window target level s,
  transverseLevel fuel g window target level = Return (Some s) ->
  exists path, path <> [] /\ follow g window path = Some target
               /\ s = pathString path.
Proof.
  induction fuel as [|fuel IH]; intros g window target level s H;
    [discriminate|].
  cbn [transverseLevel] in H.
  destruct (directFrames g window target) as [ref|] eqn:Ed.
  { injection H as <-. unfold directFrames in Ed.
    destruct (frames (g window)) as [|first rest] eqn:Ef; [discriminate|].
    destruct (directFrame_sound _ _ _ _ _ _ Ed) as (i & Hi & ->).
    exists [FrameIndex i]. cbn. rewrite Ef, Hi. repeat split. discriminate. }
  destruct (refers_to (parent (g window)) target) eqn:Ep.
  { injection H as <-. apply refers_to_true in Ep.
    exists [Parent]. cbn. rewrite Ep. repeat split. discriminate. }
  destruct (refers_to (opener (g window)) target) eqn:Eo.
  { injection H as <-. apply refers_to_true in Eo.
    exists [Opener]. cbn. rewrite Eo. repeat split. discriminate. }
  destruct (level_ge level 4); [discriminate|].
  set (recurse := fun h => transverseLevel fuel g h target (level_succ level)) in H.
  assert (Hstep : forall hp next r,
             hop g window hp = Some next ->
             recurse next = Return (Some r) -> r <> "" ->
             exists path, path <> [] /\ follow g window path = Some target
                          /\ hopString hp ++ joint hp ++ r = pathString path).
  { intros hp next r Hhop Hr Hne.
    destruct (IH _ _ _ _ _ Hr) as (path & Hp & Hf & ->).
    exists (hp :: path). split; [discriminate|]. split.
    - cbn [follow]. now rewrite Hhop.
    - now rewrite pathString_cons. }
  destruct (searchFrames recurse (frames (g window)) 0) as [[r|]| |] eqn:Es;
    try discriminate.
  { injection H as <-.
    destruct (searchFrames_sound _ _ _ _ Es) as (j & f & r' & Hj & Hr & Hne & ->).
    apply (Hstep (FrameIndex j) f r'); auto. }
  apply searchLink_sound in H as [(h & r & Hh & Hr & Hne & ->)|H].
  { apply (Hstep Parent h r); auto. }
  apply searchLink_sound in H as [(h & r & Hh & Hr & Hne & ->)|H];
    [|discriminate].
  apply (Hstep Opener h r); auto.
Qed.

(** The string built agrees with the grammar as long as no opener hop
    is followed by another hop. *)
Lemma pathString_grammar path :
  openerLast path = true -> pathString path = grammarString path.
Proof.
  unfold grammarString.
  induction path as [|h [|h' rest] IH]; intros H; try reflexivity.
  cbn [openerLast] in H.
  assert (Hrest : openerLast (h' :: rest) = true) by (destruct h; auto; discriminate).
  change (pathString (h :: h' :: rest))
    with (hopString h ++ joint h ++ pathString (h' :: rest)).
  rewrite (IH Hrest).
  destruct h; [reflexivity|reflexivity|discriminate].
Qed.

(** A target given by name is written [:name], with no search. *)
Theorem serializeWindowReference_named fuel g currentWindow name :
  serializeWindowReference fuel g currentWindow (TName name)
  = Return (":" ++ name).
Proof. reflexivity. Qed.

(** The three single- and two-hop scenarios: the parent is [p], the
    third child frame is [f,2], and a sibling frame is [p.f,1]. *)
Theorem serializeWindowReference_scenarios :
  serializeWindowReference 1 three_frames 1 (TWindow 0) = Return "p"
  /\ serializeWindowReference 1 three_frames 0 (TWindow 3) = Return "f,2"
  /\ serializeWindowReference 2 three_frames 1 (TWindow 2) = Return "p.f,1".
Proof. repeat split. Qed.

Lemma transverseLevel_level_returns_witness :
  exists r, transverseLevel 5 popup_chain 0 7 (LNum 0) = Return r.
Proof.
  apply (transverseLevel_level_returns 5 popup_chain 0 7 0). vm_compute.
  discriminate.
Defined.

(** The proxy frame's address: target origin, the proxy page, and the
    fragment with the freshness token, the path, the sender's origin and
    the percent-encoded message. *)
Theorem postMessage_proxy_frame :
  postMessage 2 legacy_browser fresh "hello world"
              (Some "http://www.foo.com/some/page.html?x=1") (Some 2) None
  = (Return tt,
     mkSender 2
       [IframeAppended
          ("http://www.foo.com/vp/JS-Lib/jQuery/plugins/postmessage.htm#"
           ++ "14000000000001&o&http://www.bar.com&hello%20world")]).
Proof. reflexivity. Qed.

(** ** Delimited strings: strings and objects *)

Lemma lookup_assignOwn o key value k :
  lookup k (assignOwn o key value)
  = if key =? k then Some value else lookup k o.
Proof.
  induction o as [|[k' v'] rest IH]; cbn.
  - reflexivity.
  - destruct (String.eqb_spec k' key) as [->|Hne]; cbn.
    + destruct (key =? k); reflexivity.
    + rewrite IH. destruct (String.eqb_spec k' k) as [->|Hk]; [|reflexivity].
      destruct (String.eqb_spec key k) as [->|_]; [contradiction|reflexivity].
Qed.

Lemma lookup_assign o key value k :
  lookup k (assign o key value)
  = if key =? "__proto__" then lookup k o
    else if key =? k then Some value else lookup k o.
Proof.
  unfold assign. destruct (key =? "__proto__"); [reflexivity|].
  apply lookup_assignOwn.
Qed.

Lemma lookup_absent o k :
  ~ In k (map fst o) -> lookup k o = None.
Proof.
  induction o as [|[k' v'] rest IH]; cbn; intros H; [reflexivity|].
  destruct (String.eqb_spec k' k) as [->|_]; [exfalso; auto|].
  apply IH. auto.
Qed.

Lemma assignOwn_fresh o key value :
  ~ In key (map fst o) -> assignOwn o key value = (o ++ [(key, value)])%list.
Proof.
  induction o as [|[k' v'] rest IH]; cbn; intros H; [reflexivity|].
  destruct (String.eqb_spec k' key) as [->|_]; [exfalso; auto|].
  rewrite IH; auto.
Qed.

Lemma prefix_char a c rest :
  prefix (char a) (String c rest) = Ascii.eqb a c.
Proof.
  cbn. destruct (ascii_dec a c) as [->|Hne].
  - rewrite Ascii.eqb_refl. now destruct rest.
  - symmetry. now apply Ascii.eqb_neq.
Qed.

Lemma splitFrom_nonempty sep s skip : splitFrom sep s skip <> [].
Proof.
  revert skip. induction s as [|c rest IH]; intros skip; cbn [splitFrom];
    [discriminate|].
  destruct skip; [|apply IH].
  destruct (prefix sep (String c rest)); [discriminate|].
  destruct (splitFrom sep rest 0); discriminate.
Qed.

(** Splitting at a single character. *)
Lemma splitFrom_char a c rest :
  splitFrom (char a) (String c rest) 0
  = if Ascii.eqb a c then EmptyString :: splitFrom (char a) rest 0
    else match splitFrom (char a) rest 0 with
         | piece :: pieces => String c piece :: pieces
         | [] => [String c EmptyString]
         end.
Proof.
  cbn [splitFrom]. rewrite prefix_char. reflexivity.
Qed.

Lemma splitFrom_app a s1 s2 :
  splitFrom (char a) (s1 ++ String a s2) 0
  = (splitFrom (char a) s1 0 ++ splitFrom (char a) s2 0)%list.
Proof.
  induction s1 as [|c rest IH].
  - cbn [append]. rewrite splitFrom_char, Ascii.eqb_refl. reflexivity.
  - change (String c rest ++ String a s2) with (String c (rest ++ String a s2)).
    rewrite !splitFrom_char, IH.
    destruct (Ascii.eqb a c); [reflexivity|].
    pose proof (splitFrom_nonempty (char a) rest 0) as Hne.
    destruct (splitFrom (char a) rest 0); [contradiction|reflexivity].
Qed.

Lemma splitFrom_whole a s :
  occurs a s = false -> splitFrom (char a) s 0 = [s].
Proof.
  induction s as [|c rest IH]; intros H; [reflexivity|].
  cbn [occurs] in H. apply orb_false_iff in H as [Hc Hrest].
  rewrite splitFrom_char, (IH Hrest).
  rewrite Ascii.eqb_sym, Hc. reflexivity.
Qed.

Lemma splitFrom_concat a pieces :
  pieces <> [] ->
  (forall p, In p pieces -> occurs a p = false) ->
  splitFrom (char a) (String.concat (char a) pieces) 0 = pieces.
Proof.
  induction pieces as [|p [|q rest] IH]; intros Hne Hall; [contradiction| |].
  - cbn. apply splitFrom_whole. apply Hall. now left.
  - change (String.concat (char a) (p :: q :: rest))
      with (p ++ String a (String.concat (char a) (q :: rest))).
    rewrite splitFrom_app, splitFrom_whole by (apply Hall; now left).
    rewrite IH; [reflexivity|discriminate|].
    intros p' Hp'. apply Hall. now right.
Qed.

Lemma occurs_app c s1 s2 :
  occurs c (s1 ++ s2) = occurs c s1 || occurs c s2.
Proof.
  induction s1 as [|d rest IH]; cbn; [reflexivity|].
  now rewrite IH, orb_assoc.
Qed.

Lemma indexOf_char b key value :
  occurs b key = false ->
  indexOf (char b) (key ++ String b value) = Some (String.length key).
Proof.
  induction key as [|c rest IH]; intros H.
  - cbn [append indexOf]. rewrite prefix_char, Ascii.eqb_refl. reflexivity.
  - cbn [occurs] in H. apply orb_false_iff in H as [Hc Hrest].
    change (String c rest ++ String b value) with (String c (rest ++ String b value)).
    cbn [indexOf]. rewrite prefix_char, Ascii.eqb_sym, Hc, (IH Hrest).
    reflexivity.
Qed.

Lemma indexOf_absent b s :
  occurs b s = false -> indexOf (char b) s = None.
Proof.
  induction s as [|c rest IH]; intros H; [reflexivity|].
  cbn [occurs] in H. apply orb_false_iff in H as [Hc Hrest].
  cbn [indexOf]. rewrite prefix_char, Ascii.eqb_sym, Hc, (IH Hrest).
  reflexivity.
Qed.

Lemma take_app key rest : take (String.length key) (key ++ rest) = key.
Proof. induction key as [|c k IH]; cbn; [now destruct rest|now rewrite IH]. Qed.

Lemma drop_app key rest : drop (String.length key) (key ++ rest) = rest.
Proof. induction key as [|c k IH]; cbn; [now destruct rest|exact IH]. Qed.

Lemma length_app s1 s2 :
  String.length (s1 ++ s2) = String.length s1 + String.length s2.
Proof. induction s1 as [|c r IH]; cbn; [reflexivity|now rewrite IH]. Qed.

(** ** Delimited strings: parsing *)

(** Parsing is a fold of [parsePair] over the pieces, also for the empty
    string. *)
Lemma parseDelimitedString_fold s a pd keyDecoder valueDecoder :
  parseDelimitedString (Some s) (char a) pd keyDecoder valueDecoder
  = fold_left (parsePair pd (orIdentity keyDecoder)
                         (orElse valueDecoder (orIdentity keyDecoder)))
              (splitFrom (char a) s 0) [].
Proof.
  unfold parseDelimitedString, orIdentity, orElse. cbn [truthy_string split char].
  destruct s as [|c rest]; reflexivity.
Qed.

(** A piece either leaves the object alone or assigns one property,
    whatever the object is. *)
Lemma parsePair_effect pd kd vd pair :
  (forall ret, parsePair pd kd vd ret pair = ret)
  \/ (exists k v, forall ret, parsePair pd kd vd ret pair = assign ret k v).
Proof.
  unfold parsePair.
  destruct (Nat.ltb 0 (String.length pair)); [|now left].
  destruct (indexOf pd pair) as [i|]; [|now left].
  destruct (Nat.ltb 0 i && Nat.leb i (String.length pair - 1)); [|now left].
  right. eauto.
Qed.

Lemma lookup_fold_parsePair pd kd vd k pieces :
  forall ret,
  lookup k (fold_left (parsePair pd kd vd) pieces ret)
  = match lookup k (fold_left (parsePair pd kd vd) pieces []) with
    | Some v => Some v
    | None => lookup k ret
    end.
Proof.
  induction pieces as [|pair pieces IH] using rev_ind; intros ret.
  - reflexivity.
  - rewrite !fold_left_app. cbn [fold_left].
    destruct (parsePair_effect pd kd vd pair) as [Hid|(k' & v & Hset)].
    + rewrite !Hid. apply IH.
    + rewrite !Hset, !lookup_assign.
      destruct (k' =? "__proto__"); [apply IH|].
      destruct (k' =? k); [reflexivity|apply IH].
Qed.

Lemma parsePair_skip pd kd vd ret pair :
  indexOf pd pair = None \/ prefix pd pair = true ->
  parsePair pd kd vd ret pair = ret.
Proof.
  unfold parsePair. intros [H|H].
  - rewrite H. now destruct (Nat.ltb 0 (String.length pair)).
  - assert (E : indexOf pd pair = Some 0).
    { destruct pair; cbn [indexOf]; now rewrite H. }
    rewrite E. destruct (Nat.ltb 0 (String.length pair)); reflexivity.
Qed.

Lemma parsePair_item pd kd vd ret key value :
  key <> EmptyString ->
  indexOf pd (key ++ pd ++ value) = Some (String.length key) ->
  parsePair pd kd vd ret (key ++ pd ++ value)
  = assign ret (kd key) (vd (drop 1 (pd ++ value))).
Proof.
  intros Hkey Hidx. unfold parsePair. rewrite Hidx.
  assert (Hpd : pd <> EmptyString).
  { intros ->. destruct key as [|c key]; [contradiction|].
    cbn in Hidx. discriminate. }
  assert (Hlen : 0 < String.length key) by (destruct key; [contradiction|cbn; lia]).
  assert (Hpdlen : 0 < String.length pd) by (destruct pd; [contradiction|cbn; lia]).
  rewrite !length_app.
  replace (Nat.ltb 0 (String.length key + (String.length pd + String.length value)))
    with true by (symmetry; apply Nat.ltb_lt; lia).
  replace (Nat.ltb 0 (String.length key)) with true
    by (symmetry; apply Nat.ltb_lt; lia).
  replace (Nat.leb (String.length key)
             (String.length key + (String.length pd + String.length value) - 1))
    with true by (symmetry; apply Nat.leb_le; lia).
  cbn [andb]. rewrite take_app.
  replace (String.length key + 1) with (1 + String.length key) by lia.
  f_equal. f_equal.
  clear. induction key as [|c key IH]; [reflexivity|exact IH].
Qed.

(** Parsing a string that ends in one more piece is parsing the string
    before it and then handling the piece. *)
Lemma parseDelimitedString_snoc s1 piece a pd keyDecoder valueDecoder :
  occurs a piece = false ->
  parseDelimitedString (Some (s1 ++ String a piece)) (char a) pd
                       keyDecoder valueDecoder
  = parsePair pd (orIdentity keyDecoder)
              (orElse valueDecoder (orIdentity keyDecoder))
              (parseDelimitedString (Some s1) (char a) pd
                                    keyDecoder valueDecoder)
              piece.
Proof.
  intros Ha.
  rewrite !parseDelimitedString_fold, splitFrom_app, fold_left_app.
  now rewrite (splitFrom_whole a piece Ha).
Qed.

(** A key of a later item overrides the same key of an earlier one,
    and a key the later part does not set keeps the value the earlier
    part gave it. *)
Theorem parseDelimitedString_later_wins s1 s2 a pd keyDecoder valueDecoder k :
  lookup k (parseDelimitedString (Some (s1 ++ String a s2)) (char a) pd
                                 keyDecoder valueDecoder)
  = match lookup k (parseDelimitedString (Some s2) (char a) pd
                                         keyDecoder valueDecoder) with
    | Some v => Some v
    | None => lookup k (parseDelimitedString (Some s1) (char a) pd
                                             keyDecoder valueDecoder)
    end.
Proof.
  rewrite !parseDelimitedString_fold, splitFrom_app, fold_left_app.
  apply lookup_fold_parsePair.
Qed.

(** A piece that does not hold the pair delimiter, or that starts
    with it (an empty name), is dropped without a trace; with an empty
    pair delimiter every piece is. *)
Theorem parseDelimitedString_skips s1 piece a pd keyDecoder valueDecoder :
  occurs a piece = false ->
  indexOf pd piece = None \/ prefix pd piece = true ->
  parseDelimitedString (Some (s1 ++ String a piece)) (char a) pd
                       keyDecoder valueDecoder
  = parseDelimitedString (Some s1) (char a) pd keyDecoder valueDecoder.
Proof.
  intros Ha Hbad.
  rewrite (parseDelimitedString_snoc s1 piece a pd _ _ Ha).
  now apply parsePair_skip.
Qed.

Lemma parseDelimitedString_skips_witness :
  parseDelimitedString (Some ("a=1" ++ String "&" "flag")) (char "&") "="
                       None None
  = parseDelimitedString (Some "a=1") (char "&") "=" None None.
Proof.
  apply (parseDelimitedString_skips "a=1" "flag" "&" "=" None None).
  - reflexivity.
  - left. reflexivity.
Defined.

(** A further item [name=value] assigns that property: the name is
    what stands before the first pair delimiter, the value everything
    after it. *)
Theorem parseDelimitedString_item s1 key value a b keyDecoder valueDecoder :
  key <> EmptyString ->
  occurs b key = false ->
  occurs a key = false -> a <> b -> occurs a value = false ->
  parseDelimitedString (Some (s1 ++ String a (key ++ String b value)))
                       (char a) (char b) keyDecoder valueDecoder
  = assign (parseDelimitedString (Some s1) (char a) (char b)
                                 keyDecoder valueDecoder)
           (orIdentity keyDecoder key)
           (orElse valueDecoder (orIdentity keyDecoder) value).
Proof.
  intros Hkey Hb Ha Hab Hv.
  rewrite parseDelimitedString_snoc.
  - change (key ++ String b value) with (key ++ char b ++ value).
    rewrite parsePair_item; [reflexivity|exact Hkey|].
    now apply indexOf_char.
  - rewrite occurs_app, Ha. cbn [occurs orb]. rewrite Hv.
    apply orb_false_iff. split; [|reflexivity].
    apply Ascii.eqb_neq. congruence.
Qed.

Lemma parseDelimitedString_item_witness :
  parseDelimitedString (Some ("a=1" ++ String "&" ("b" ++ String "=" "2=3")))
                       (char "&") (char "=") None None
  = assign (parseDelimitedString (Some "a=1") (char "&") (char "=") None None)
           "b" "2=3".
Proof.
  apply (parseDelimitedString_item "a=1" "b" "2=3" "&" "=" None None);
    (reflexivity || discriminate).
Defined.

(** With a pair delimiter of more than one character, the first of them
    an ASCII character, the value keeps all of the delimiter but that
    first character. *)
Theorem parseDelimitedString_long_delimiter s1 key value a c pd
                                            keyDecoder valueDecoder :
  (code a < 128)%N -> (code c < 128)%N ->
  key <> EmptyString ->
  indexOf (String c pd) (key ++ String c pd ++ value)
  = Some (String.length key) ->
  occurs a (key ++ String c pd ++ value) = false ->
  parseDelimitedString (Some (s1 ++ String a (key ++ String c pd ++ value)))
                       (char a) (String c pd) keyDecoder valueDecoder
  = assign (parseDelimitedString (Some s1) (char a) (String c pd)
                                 keyDecoder valueDecoder)
           (orIdentity keyDecoder key)
           (orElse valueDecoder (orIdentity keyDecoder) (pd ++ value)).
Proof.
  intros _ _ Hkey Hidx Ha.
  rewrite (parseDelimitedString_snoc s1 _ a (String c pd) _ _ Ha).
  now rewrite parsePair_item by assumption.
Qed.

Lemma parseDelimitedString_long_delimiter_witness :
  parseDelimitedString (Some ("a=>1" ++ String ";" ("b" ++ "=>" ++ "2")))
                       (char ";") "=>" None None
  = assign (parseDelimitedString (Some "a=>1") (char ";") "=>" None None)
           "b" (">" ++ "2").
Proof.
  apply (parseDelimitedString_long_delimiter "a=>1" "b" "2" ";" "=" ">"
           None None);
    (reflexivity || discriminate).
Defined.

(** ** Delimited strings: encoding and the round trip *)

Lemma insertIndexed_perm n e l :
  Permutation (insertIndexed n e l) ((n, e) :: l).
Proof.
  induction l as [|[m e'] rest IH]; cbn; [reflexivity|].
  destruct (n <=? m)%N; [reflexivity|].
  rewrite IH. apply perm_swap.
Qed.

(** [for ... in] visits every property once. *)
Lemma forIn_perm o : Permutation (forIn o) o.
Proof.
  unfold forIn. induction o as [|e rest IH]; [reflexivity|].
  cbn [indexed named filter].
  destruct (arrayIndex (fst e)) as [n|].
  - rewrite (Permutation_map snd (insertIndexed_perm n e (indexed rest))).
    cbn. now apply perm_skip.
  - rewrite <- Permutation_middle. now apply perm_skip.
Qed.

Lemma concat_cons sep p q rest :
  String.concat sep (p :: q :: rest) = p ++ sep ++ String.concat sep (q :: rest).
Proof. reflexivity. Qed.

Section RoundTrip.

Variables a b : ascii.
Variables keyEncoder valueEncoder keyDecoder valueDecoder : string -> string.
Hypothesis delimiters_differ : a <> b.

Let encoded (kv : string * string) : string :=
  keyEncoder (fst kv) ++ char b ++ valueEncoder (snd kv).

Lemma encoded_free kv :
  encodable a b keyEncoder valueEncoder keyDecoder valueDecoder kv ->
  occurs a (encoded kv) = false.
Proof.
  intros (_ & _ & _ & Hak & _ & Hav & _). unfold encoded.
  rewrite !occurs_app, Hak, Hav. cbn. rewrite !orb_false_r.
  apply Ascii.eqb_neq. congruence.
Qed.

Lemma parsePair_encoded ret kv :
  encodable a b keyEncoder valueEncoder keyDecoder valueDecoder kv ->
  ~ In (fst kv) (map fst ret) ->
  parsePair (char b) keyDecoder valueDecoder ret (encoded kv)
  = (ret ++ [kv])%list.
Proof.
  intros (Hproto & _ & Hne & _ & Hbk & _ & Hk & Hv) Hfresh. unfold encoded.
  rewrite parsePair_item; [|exact Hne|now apply indexOf_char].
  cbn [char append drop]. rewrite Hk, Hv. unfold assign.
  destruct (String.eqb_spec (fst kv) "__proto__") as [E|_]; [contradiction|].
  rewrite assignOwn_fresh by exact Hfresh. now destruct kv.
Qed.

Lemma fold_encoded items :
  (forall kv, In kv items ->
     encodable a b keyEncoder valueEncoder keyDecoder valueDecoder kv) ->
  forall ret, NoDup (map fst (ret ++ items)) ->
  fold_left (parsePair (char b) keyDecoder valueDecoder) (map encoded items) ret
  = (ret ++ items)%list.
Proof.
  induction items as [|kv rest IH]; intros Hall ret Hnd; cbn [map fold_left].
  - now rewrite app_nil_r.
  - rewrite parsePair_encoded.
    + rewrite IH.
      * now rewrite <- app_assoc.
      * intros kv' Hin. apply Hall. now right.
      * now rewrite <- app_assoc.
    + apply Hall. now left.
    + rewrite map_app in Hnd. cbn in Hnd.
      apply NoDup_remove_2 in Hnd. intros Hin. apply Hnd.
      apply in_or_app. now left.
Qed.

Lemma roundtrip_items items :
  (forall kv, In kv items ->
     encodable a b keyEncoder valueEncoder keyDecoder valueDecoder kv) ->
  NoDup (map fst items) ->
  parseDelimitedString (Some (String.concat (char a) (map encoded items)))
                       (char a) (char b) (Some keyDecoder) (Some valueDecoder)
  = items.
Proof.
  intros Hall Hnd. rewrite parseDelimitedString_fold.
  cbn [orIdentity orElse].
  destruct items as [|kv rest]; [reflexivity|].
  rewrite splitFrom_concat.
  - now apply (fold_encoded (kv :: rest) Hall []).
  - discriminate.
  - intros p Hp. apply in_map_iff in Hp as (kv' & <- & Hin).
    now apply encoded_free, Hall.
Qed.

End RoundTrip.

(** Encoding an object and parsing the result gives back an object
    with exactly the properties of the first, listed in the order in
    which [for ... in] visited them, provided the names are distinct and
    every property survives encoding. *)
Theorem parse_encode_roundtrip data a b keyEncoder valueEncoder
                               keyDecoder valueDecoder :
  a <> b ->
  NoDup (map fst data) ->
  (forall kv, In kv data ->
     encodable a b (orIdentity keyEncoder)
               (orElse valueEncoder (orIdentity keyEncoder))
               (orIdentity keyDecoder)
               (orElse valueDecoder (orIdentity keyDecoder)) kv) ->
  exists s,
    encodeDelimitedString (Some data) (char a) (char b)
                          keyEncoder valueEncoder = Return s
    /\ parseDelimitedString (Some s) (char a) (char b)
                            keyDecoder valueDecoder = forIn data
    /\ Permutation (forIn data) data.
Proof.
  intros Hab Hnd Hall.
  pose proof (forIn_perm data) as Hperm.
  set (ke := orIdentity keyEncoder) in *.
  set (ve := orElse valueEncoder ke) in *.
  set (kd := orIdentity keyDecoder) in *.
  set (vd := orElse valueDecoder kd) in *.
  assert (Hitems : forall kv, In kv (forIn data) -> encodable a b ke ve kd vd kv).
  { intros kv Hin. apply Hall. now apply (Permutation_in _ Hperm). }
  assert (Hnd' : NoDup (map fst (forIn data))).
  { apply (Permutation_NoDup (l := map fst data)); [|exact Hnd].
    apply Permutation_map. now symmetry. }
  assert (Hparse : forall s, parseDelimitedString (Some s) (char a) (char b)
                               keyDecoder valueDecoder
                             = parseDelimitedString (Some s) (char a) (char b)
                                                    (Some kd) (Some vd)).
  { intros s. now rewrite !parseDelimitedString_fold. }
  unfold encodeDelimitedString. fold ke. fold ve.
  change (match keyEncoder with Some f => f | None => fun s => s end) with ke.
  change (match valueEncoder with Some f => f | None => ke end) with ve.
  destruct (forIn data) as [|kv rest] eqn:E.
  - exists EmptyString. split; [reflexivity|]. split; [|exact Hperm].
    rewrite Hparse. reflexivity.
  - assert (Hown : lookup "hasOwnProperty" data = None).
    { apply lookup_absent. intros Hin.
      apply in_map_iff in Hin as (kv' & Hk & Hin).
      destruct (Hall kv' Hin) as (_ & Hno & _). contradiction. }
    rewrite Hown. eexists. split; [reflexivity|]. split; [|exact Hperm].
    rewrite Hparse.
    apply (roundtrip_items a b ke ve kd vd Hab (kv :: rest) Hitems Hnd').
Qed.

Lemma parse_encode_roundtrip_witness :
  exists s,
    encodeDelimitedString (Some [("b", "2"); ("a", "x=y")]) (char "&") (char "=")
                          None None = Return s
    /\ parseDelimitedString (Some s) (char "&") (char "=") None None
       = forIn [("b", "2"); ("a", "x=y")]
    /\ Permutation (forIn [("b", "2"); ("a", "x=y")]) [("b", "2"); ("a", "x=y")].
Proof.
  apply (parse_encode_roundtrip [("b", "2"); ("a", "x=y")] "&" "=" None None None None).
  - discriminate.
  - repeat constructor; cbn; intuition discriminate.
  - intros kv [<-|[<-|[]]]; repeat split; discriminate.
Defined.

(** An object with an own property named [hasOwnProperty] cannot be
    encoded: the loop of the encoder calls that property, a string. *)
Lemma encodeDelimitedString_hasOwnProperty data v itemDelimiter pairDelimiter
                                           keyEncoder valueEncoder :
  lookup "hasOwnProperty" data = Some v ->
  encodeDelimitedString (Some data) itemDelimiter pairDelimiter
                        keyEncoder valueEncoder
  = Throw NotAFunction.
Proof.
  intros Hown. unfold encodeDelimitedString.
  destruct (forIn data) as [|kv rest] eqn:E.
  - pose proof (forIn_perm data) as Hperm.
    rewrite E in Hperm. apply Permutation_nil in Hperm.
    rewrite Hperm in Hown. discriminate.
  - now rewrite Hown.
Qed.

Lemma append_nil_r (s : string) : s ++ EmptyString = s.
Proof. induction s as [|c s IH]; cbn; [reflexivity|now rewrite IH]. Qed.

Lemma append_assoc_string (x y z : string) : (x ++ y) ++ z = x ++ y ++ z.
Proof. induction x as [|c x IH]; cbn; [reflexivity|now rewrite IH]. Qed.

(** An item whose name decodes to [k] leaves the parsed object with a
    property [k], whatever stands before and after the item. *)
Lemma parseDelimitedString_has_item before after key value a b k
                                    keyDecoder valueDecoder :
  before = EmptyString \/ (exists s1, before = s1 ++ char a) ->
  after = EmptyString \/ (exists s2, after = String a s2) ->
  orIdentity keyDecoder key = k -> k <> "__proto__" ->
  key <> EmptyString -> occurs b key = false ->
  occurs a key = false -> a <> b -> occurs a value = false ->
  exists v,
    lookup k (parseDelimitedString
                (Some (before ++ (key ++ String b value) ++ after))
                (char a) (char b) keyDecoder valueDecoder)
    = Some v.
Proof.
  intros Hbefore Hafter Hname Hproto Hkey Hb Ha Hab Hv.
  set (piece := key ++ String b value).
  assert (Hpiece : occurs a piece = false).
  { unfold piece. rewrite occurs_app, Ha. cbn [occurs orb]. rewrite Hv.
    apply orb_false_iff. split; [|reflexivity].
    apply Ascii.eqb_neq. congruence. }
  assert (Hitem : forall ret,
            lookup k (parsePair (char b) (orIdentity keyDecoder)
                        (orElse valueDecoder (orIdentity keyDecoder))
                        ret piece)
            = Some (orElse valueDecoder (orIdentity keyDecoder) value)).
  { intros ret. unfold piece.
    change (key ++ String b value) with (key ++ char b ++ value).
    rewrite parsePair_item; [|exact Hkey|now apply indexOf_char].
    rewrite lookup_assign, Hname.
    destruct (String.eqb_spec k "__proto__"); [contradiction|].
    now rewrite String.eqb_refl. }
  assert (Hhere : lookup k (parseDelimitedString (Some (before ++ piece))
                              (char a) (char b) keyDecoder valueDecoder)
                  = Some (orElse valueDecoder (orIdentity keyDecoder) value)).
  { destruct Hbefore as [->|[s1 ->]].
    - cbn [append].
      rewrite parseDelimitedString_fold, (splitFrom_whole a piece Hpiece).
      apply Hitem.
    - rewrite append_assoc_string. cbn [char append].
      rewrite (parseDelimitedString_snoc s1 piece a (char b) _ _ Hpiece).
      apply Hitem. }
  destruct Hafter as [->|[s2 ->]].
  - rewrite append_nil_r. eauto.
  - rewrite <- append_assoc_string.
    rewrite parseDelimitedString_fold, splitFrom_app, fold_left_app.
    rewrite lookup_fold_parsePair.
    rewrite <- (parseDelimitedString_fold (before ++ piece) a (char b)
                  keyDecoder valueDecoder), Hhere.
    destruct (lookup k (fold_left _ _ _)) as [v|];
      [now exists v|eexists; reflexivity].
Qed.

(** Once a parsed string has an item named [hasOwnProperty], wherever
    the item stands in the string, encoding the object parsed from it
    throws: the loop of the encoder calls that property. *)
Theorem encode_parsed_hasOwnProperty before after key value a b
                                     keyDecoder valueDecoder
                                     itemDelimiter pairDelimiter
                                     keyEncoder valueEncoder :
  before = EmptyString \/ (exists s1, before = s1 ++ char a) ->
  after = EmptyString \/ (exists s2, after = String a s2) ->
  (code a < 128)%N -> (code b < 128)%N ->
  orIdentity keyDecoder key = "hasOwnProperty" ->
  key <> EmptyString -> occurs b key = false ->
  occurs a key = false -> a <> b -> occurs a value = false ->
  encodeDelimitedString
    (Some (parseDelimitedString
             (Some (before ++ (key ++ String b value) ++ after))
             (char a) (char b) keyDecoder valueDecoder))
    itemDelimiter pairDelimiter keyEncoder valueEncoder
  = Throw NotAFunction.
Proof.
  intros Hbefore Hafter _ _ Hname Hkey Hb Ha Hab Hv.
  destruct (parseDelimitedString_has_item before after key value a b
              "hasOwnProperty" keyDecoder valueDecoder)
    as [v Hown]; try assumption; [discriminate|].
  now apply (encodeDelimitedString_hasOwnProperty _ v).
Qed.

Lemma encode_parsed_hasOwnProperty_witness :
  encodeDelimitedString
    (Some (parseDelimitedString
             (Some (("a=1" ++ char "&") ++ ("hasOwnProperty" ++ String "=" "x")
                    ++ String "&" "b=2&hasOwnProperty"))
             (char "&") (char "=") None None))
    "&" "=" None None
  = Throw NotAFunction.
Proof.
  apply (encode_parsed_hasOwnProperty ("a=1" ++ char "&")
           (String "&" "b=2&hasOwnProperty") "hasOwnProperty" "x" "&" "=");
    try (reflexivity || discriminate).
  - right. now exists "a=1".
  - right. now exists "b=2&hasOwnProperty".
Defined.

(** ** [getDomainFromUrl] *)

Lemma code_eqb c d : (code c =? code d)%N = Ascii.eqb c d.
Proof.
  unfold code. destruct (Ascii.eqb_spec c d) as [->|Hne].
  - apply N.eqb_refl.
  - apply N.eqb_neq. intros E. apply Hne.
    rewrite <- (ascii_N_embedding c), <- (ascii_N_embedding d). now rewrite E.
Qed.

Lemma span_eq p s : forall x r, span p s = (x, r) -> s = x ++ r.
Proof.
  induction s as [|c rest IH]; intros x r H; cbn in H.
  - now injection H as <- <-.
  - destruct (p c).
    + destruct (span p rest) as [x' r'] eqn:E. injection H as <- <-.
      cbn. f_equal. now apply IH.
    + now injection H as <- <-.
Qed.

Lemma span_stops p s : forall x c r, span p s = (x, String c r) -> p c = false.
Proof.
  induction s as [|c' rest IH]; intros x c r H; cbn in H.
  - discriminate.
  - destruct (p c') eqn:Ep.
    + destruct (span p rest) as [x' r'] eqn:E. injection H as <- ->.
      eapply IH. reflexivity.
    + injection H as _ <- _. exact Ep.
Qed.

Lemma span_free (c : ascii) s rest :
  occurs c s = false ->
  rest = EmptyString \/ (exists r, rest = String c r) ->
  span (fun d => negb (code d =? code c)%N) (s ++ rest) = (s, rest).
Proof.
  intros Hs Hrest. induction s as [|d s IH]; cbn [append].
  - destruct Hrest as [->|[r ->]]; [reflexivity|].
    cbn. now rewrite N.eqb_refl.
  - cbn [occurs] in Hs. apply orb_false_iff in Hs as [Hd Hs].
    cbn [span]. rewrite code_eqb, Hd. cbn [negb]. now rewrite (IH Hs).
Qed.

Lemma prefix_app sub r : prefix sub (sub ++ r) = true.
Proof.
  induction sub as [|c sub IH]; cbn; [now destruct r|].
  destruct (ascii_dec c c); [exact IH|contradiction].
Qed.

Lemma indexOf_found sub x r : indexOf sub (x ++ sub ++ r) <> None.
Proof.
  induction x as [|c x IH]; cbn [append indexOf].
  - destruct (sub ++ r) eqn:E; cbn [indexOf];
      rewrite <- E, prefix_app; discriminate.
  - destruct (prefix sub (String c (x ++ sub ++ r))); [discriminate|].
    destruct (indexOf sub (x ++ sub ++ r)); [discriminate|contradiction].
Qed.

Lemma indexOf_tail sub c r :
  indexOf sub (String c r) = None -> indexOf sub r = None.
Proof.
  cbn [indexOf]. destruct (prefix sub (String c r)); [discriminate|].
  now destruct (indexOf sub r).
Qed.

Lemma matchDomain_found s d r :
  matchDomain s = Some (d, r) -> indexOf "://" s <> None.
Proof.
  unfold matchDomain.
  destruct (span (fun c => negb (code c =? 58)%N) s) as [scheme r1] eqn:E.
  destruct scheme as [|c0 scheme]; [discriminate|].
  destruct r1 as [|c1 [|s1 [|s2 r2]]]; try discriminate.
  destruct ((code s1 =? 47)%N && (code s2 =? 47)%N) eqn:Es; [|discriminate].
  intros _.
  apply andb_true_iff in Es as [E1 E2].
  pose proof (span_stops _ _ _ _ _ E) as Hc. apply negb_false_iff in Hc.
  change 58%N with (code ":") in Hc. change 47%N with (code "/") in E1, E2.
  rewrite code_eqb in Hc, E1, E2.
  apply Ascii.eqb_eq in Hc, E1, E2. subst c1 s1 s2.
  rewrite (span_eq _ _ _ _ E).
  apply (indexOf_found "://" (String c0 scheme) r2).
Qed.

(** A URL that holds no [://] is returned as it is. *)
Theorem getDomainFromUrl_unchanged url :
  indexOf "://" url = None -> getDomainFromUrl url = url.
Proof.
  induction url as [|c rest IH]; intros H.
  - reflexivity.
  - cbn [getDomainFromUrl].
    destruct (matchDomain (String c rest)) as [[d r]|] eqn:E.
    + exfalso. now apply (matchDomain_found _ _ _ E).
    + f_equal. apply IH. now apply (indexOf_tail _ _ _ H).
Qed.

Lemma getDomainFromUrl_unchanged_witness :
  getDomainFromUrl "www.foo.com:8080/index.html" = "www.foo.com:8080/index.html".
Proof.
  apply (getDomainFromUrl_unchanged "www.foo.com:8080/index.html").
  reflexivity.
Defined.

Lemma afterLine_oneLine s : oneLine s = true -> afterLine s = EmptyString.
Proof.
  unfold oneLine. induction s as [|c rest IH]; intros H; [reflexivity|].
  cbn [list_ascii_of_string forallb] in H.
  apply andb_true_iff in H as [Hc Hrest].
  apply negb_true_iff, orb_false_iff in Hc as [Hc H226].
  cbn [afterLine]. rewrite Hc, H226. cbn [andb].
  destruct rest as [|c1 [|c2 r]]; now apply IH.
Qed.

(** Of a URL [scheme://host] followed by nothing or by a path that
    begins with [/], what is kept is [scheme://host]: the path is
    dropped up to the end of its line, and all of it when it holds no
    line break. *)
Theorem getDomainFromUrl_origin scheme host rest :
  scheme <> EmptyString -> occurs ":" scheme = false ->
  host <> EmptyString -> occurs "/" host = false ->
  rest = EmptyString \/ (exists r, rest = String "/" r) ->
  getDomainFromUrl (scheme ++ "://" ++ host ++ rest)
  = scheme ++ "://" ++ host ++ afterLine rest
  /\ (oneLine rest = true ->
      getDomainFromUrl (scheme ++ "://" ++ host ++ rest)
      = scheme ++ "://" ++ host).
Proof.
  intros Hs Hcolon Hh Hslash Hrest.
  assert (Hgen : getDomainFromUrl (scheme ++ "://" ++ host ++ rest)
                 = scheme ++ "://" ++ host ++ afterLine rest);
    [|split; [exact Hgen|];
      intros Hl; rewrite Hgen, (afterLine_oneLine rest Hl);
      f_equal; f_equal; clear; induction host; cbn; now f_equal].
  assert (Hm : matchDomain (scheme ++ "://" ++ host ++ rest)
               = Some (scheme ++ "://" ++ host, afterLine rest)).
  { unfold matchDomain.
    change 58%N with (code ":"). change 47%N with (code "/").
    rewrite (span_free ":" scheme ("://" ++ host ++ rest) Hcolon)
      by (right; eexists; reflexivity).
    destruct scheme as [|c0 scheme]; [contradiction|].
    cbn [append]. rewrite !N.eqb_refl. cbn [andb].
    rewrite (span_free "/" host rest Hslash Hrest).
    destruct host; [contradiction|reflexivity]. }
  destruct scheme as [|c0 scheme]; [contradiction|].
  cbn [append] in *. cbn [getDomainFromUrl]. rewrite Hm.
  cbn [append]. f_equal. now rewrite append_assoc_string.
Qed.

Lemma getDomainFromUrl_origin_witness :
  getDomainFromUrl ("http" ++ "://" ++ "www.foo.com" ++ "/a/b?c=d#e")
  = "http" ++ "://" ++ "www.foo.com".
Proof.
  apply (getDomainFromUrl_origin "http" "www.foo.com" "/a/b?c=d#e");
    try discriminate; try reflexivity.
  right. eexists. reflexivity.
Defined.

(** ** WindowPathResolver: what a search with a numeric level finds *)

Lemma directFrame_hit g first target fs :
  instanceofWindow (g first) = true ->
  In target fs ->
  forall k, exists ref, directFrame g first target fs k = Some ref.
Proof.
  intros Hw. induction fs as [|f rest IH]; intros Hin k; [contradiction|].
  cbn [directFrame]. rewrite Hw. cbn [andb].
  destruct (Nat.eqb_spec f target) as [_|Hne]; [eauto|].
  destruct Hin as [E|Hin]; [contradiction|]. now apply IH.
Qed.

Lemma directFrames_hit g window target :
  (forall h, instanceofWindow (g h) = true) ->
  In target (frames (g window)) ->
  exists ref, directFrames g window target = Some ref.
Proof.
  intros Hw Hin. unfold directFrames.
  destruct (frames (g window)) as [|first rest]; [contradiction|].
  now apply directFrame_hit.
Qed.

Lemma searchFrames_finds recurse fs f r :
  (forall h, exists r, recurse h = Return r) ->
  In f fs -> recurse f = Return r -> found r = true ->
  forall i, exists s, searchFrames recurse fs i = Return (Some s).
Proof.
  intros Hrec. induction fs as [|f' rest IH]; intros Hin Hr Hf i; [contradiction|].
  cbn [searchFrames]. destruct (Hrec f') as [r' Hr'].
  rewrite Hr'. destruct (found r') eqn:Ef'; [eauto|].
  destruct Hin as [->|Hin].
  - rewrite Hr in Hr'. injection Hr' as <-. congruence.
  - now apply IH.
Qed.

Lemma searchLink_finds recurse h window prefix next r :
  h <> window -> recurse h = Return r -> found r = true ->
  exists s, searchLink recurse (Some h) window prefix next = Return (Some s).
Proof.
  intros Hne Hr Hf. unfold searchLink.
  destruct (Nat.eqb_spec h window) as [E|_]; [contradiction|].
  cbn [negb]. rewrite Hr, Hf. eauto.
Qed.

Lemma searchLink_passes recurse ref window prefix next :
  (forall h, exists r, recurse h = Return r) ->
  (exists s, next = Return (Some s)) ->
  exists s, searchLink recurse ref window prefix next = Return (Some s).
Proof.
  intros Hrec Hnext. unfold searchLink.
  destruct ref as [h|]; [|assumption].
  destruct (negb (Nat.eqb h window)); [|assumption].
  destruct (Hrec h) as [r ->]. destruct (found r); eauto.
Qed.

Lemma transverseLevel_numeric_returns fuel :
  forall g window target n,
  (Z.max 1 (5 - n) <= Z.of_nat fuel)%Z ->
  exists r, transverseLevel fuel g window target (LNum n) = Return r.
Proof.
  induction fuel as [|fuel IH]; intros g window target n Hn; [lia|].
  cbn [transverseLevel].
  destruct (directFrames g window target); [eauto|].
  destruct (refers_to (parent (g window)) target); [eauto|].
  destruct (refers_to (opener (g window)) target); [eauto|].
  cbn [level_ge level_succ].
  destruct (Z.leb_spec 4 n) as [Hge|Hlt]; [eauto|].
  assert (Hrec : forall h, exists r,
             transverseLevel fuel g h target (LNum (n + 1)) = Return r).
  { intros h. apply IH. lia. }
  destruct (searchFrames_returns _ (frames (g window)) Hrec 0) as [r ->].
  destruct r as [r|]; [eauto|].
  apply searchLink_returns; [exact Hrec|].
  apply searchLink_returns; [exact Hrec|eauto].
Qed.

Lemma found_path fuel g window target level s :
  transverseLevel fuel g window target level = Return (Some s) ->
  found (Some s) = true.
Proof.
  intros H. destruct (transverseLevel_sound _ _ _ _ _ _ H) as (path & Hp & _ & ->).
  cbn. apply negb_true_iff, String.eqb_neq. now apply pathString_nonempty.
Qed.

(** Called with a number for [level], the search finds every target
    that some path of at most [5 - level] hops leads to, when every
    window passes [instanceof Window]. *)
Theorem transverseLevel_complete g :
  (forall h, instanceofWindow (g h) = true) ->
  forall path window target n fuel,
  path <> [] -> follow g window path = Some target ->
  (Z.of_nat (List.length path) <= 5 - n)%Z ->
  (Z.max 1 (5 - n) <= Z.of_nat fuel)%Z ->
  exists s, transverseLevel fuel g window target (LNum n) = Return (Some s).
Proof.
  intros Hw. induction path as [|h rest IH];
    intros window target n fuel Hne Hfollow Hlen Hfuel; [contradiction|].
  destruct fuel as [|fuel]; [lia|].
  cbn [follow] in Hfollow.
  destruct (hop g window h) as [next|] eqn:Ehop; [|discriminate].
  cbn [transverseLevel].
  destruct (directFrames g window target) as [ref|] eqn:Ed; [eauto|].
  destruct (refers_to (parent (g window)) target) eqn:Ep; [eauto|].
  destruct (refers_to (opener (g window)) target) eqn:Eo; [eauto|].
  destruct rest as [|h' rest'].
  { (* a single hop is one of the three direct relations *)
    exfalso. injection Hfollow as ->. destruct h; cbn [hop] in Ehop.
    - destruct (directFrames_hit g window target Hw) as [ref Href];
        [eapply nth_error_In; eauto|congruence].
    - apply refers_to_true in Ehop. congruence.
    - apply refers_to_true in Ehop. congruence. }
  set (rest := h' :: rest') in *.
  assert (Hrest : rest <> []) by discriminate.
  cbn [List.length] in Hlen.
  cbn [level_ge level_succ].
  destruct (Z.leb_spec 4 n) as [Hge|Hlt]; [subst rest; cbn [List.length] in Hlen; lia|].
  destruct (Nat.eq_dec next window) as [->|Hnw].
  { (* a hop that stays on the window: the rest of the path starts here too *)
    destruct (IH window target n (S fuel) Hrest Hfollow) as [s Hs];
      [subst rest; cbn [List.length] in *; lia|lia|].
    cbn [transverseLevel] in Hs. rewrite Ed, Ep, Eo in Hs.
    cbn [level_ge level_succ] in Hs.
    destruct (Z.leb_spec 4 n); [lia|]. eauto. }
  set (recurse := fun h0 => transverseLevel fuel g h0 target (LNum (n + 1))).
  assert (Hrec : forall h0, exists r, recurse h0 = Return r).
  { intros h0. apply transverseLevel_numeric_returns. lia. }
  destruct (IH next target (n + 1)%Z fuel Hrest Hfollow) as [s Hs];
    [subst rest; cbn [List.length] in *; lia|lia|].
  pose proof (found_path _ _ _ _ _ _ Hs) as Hfound.
  fold recurse in Hs.
  destruct h; cbn [hop] in Ehop.
  - destruct (searchFrames_finds recurse (frames (g window)) next (Some s) Hrec)
      with (i := 0) as [s' ->]; eauto.
    eapply nth_error_In; eauto.
  - destruct (searchFrames_returns recurse (frames (g window)) Hrec 0) as [[r|] ->];
      [eauto|].
    rewrite Ehop. eapply searchLink_finds; eauto.
  - destruct (searchFrames_returns recurse (frames (g window)) Hrec 0) as [[r|] ->];
      [eauto|].
    apply searchLink_passes; [exact Hrec|].
    rewrite Ehop. eapply searchLink_finds; eauto.
Qed.

Lemma transverseLevel_complete_witness :
  exists s, transverseLevel 5 three_frames 1 2 (LNum 0) = Return (Some s).
Proof.
  apply (transverseLevel_complete three_frames (fun h => ltac:(destruct h; reflexivity))
           [Parent; FrameIndex 1] 1 2 0 5).
  - discriminate.
  - reflexivity.
  - cbn. lia.
  - cbn. lia.
Defined.

(** ** WindowPathResolver: two outcomes of [serializeWindowReference] *)

Lemma refers_to_false ref target :
  ref <> Some target -> refers_to ref target = false.
Proof.
  intros H. destruct (refers_to ref target) eqn:E; [|reflexivity].
  apply refers_to_true in E. contradiction.
Qed.

(** From a window without frames whose parent and opener are missing or
    the window itself, every other window is unresolvable. *)
Theorem serializeWindowReference_isolated g window target fuel :
  frames (g window) = [] ->
  parent (g window) = None \/ parent (g window) = Some window ->
  opener (g window) = None \/ opener (g window) = Some window ->
  window <> target ->
  serializeWindowReference (S fuel) g window (TWindow target)
  = Throw UnresolvableWindow.
Proof.
  intros Hfr Hpar Hop Hne.
  unfold serializeWindowReference, transverseLevel, directFrames.
  rewrite Hfr.
  destruct (Nat.eqb_spec window target) as [E|_]; [contradiction|].
  destruct Hpar as [-> | ->], Hop as [-> | ->];
    cbn [refers_to refers_elsewhere andb level_ge searchFrames searchLink];
    rewrite ?Nat.eqb_refl;
    cbn [negb andb];
    destruct (Nat.eqb_spec window target) as [E|_];
    (contradiction || reflexivity).
Qed.

Lemma serializeWindowReference_isolated_witness :
  serializeWindowReference 1 popup_chain 7 (TWindow 0)
  = Throw UnresolvableWindow.
Proof.
  apply (serializeWindowReference_isolated popup_chain 7 0 0).
  - reflexivity.
  - right. reflexivity.
  - left. reflexivity.
  - discriminate.
Defined.

(** From a frame without frames of its own, a frame of its parent page
    resolves to [p.f,i], [i] being the first index at which the page
    holds it. *)
Theorem serializeWindowReference_sibling g source page target i fuel :
  frames (g source) = [] ->
  parent (g source) = Some page ->
  page <> source -> page <> target -> source <> target ->
  opener (g source) <> Some target ->
  first_frame_is_window g page ->
  first_index (frames (g page)) target i ->
  serializeWindowReference (S (S fuel)) g source (TWindow target)
  = Return ("p.f," ++ string_of_nat i).
Proof.
  intros Hfr Hpar Hps Hpt Hst Hop Hw Hi.
  unfold serializeWindowReference.
  destruct (Nat.eqb_spec source target) as [E|_]; [contradiction|].
  rewrite (refers_to_false _ _ Hop), andb_false_r, Hpar.
  cbn [refers_to refers_elsewhere].
  destruct (Nat.eqb_spec page target) as [E|_]; [contradiction|].
  rewrite andb_false_r.
  cbn [transverseLevel]. unfold directFrames at 1. rewrite Hfr, Hpar.
  cbn [refers_to].
  destruct (Nat.eqb_spec page target) as [E|_]; [contradiction|].
  rewrite (refers_to_false _ _ Hop).
  cbn [level_ge level_succ searchFrames searchLink].
  destruct (Nat.eqb_spec page source) as [E|_]; [contradiction|].
  cbn [negb].
  rewrite (directFrames_first g page target i Hw Hi).
  reflexivity.
Qed.

Lemma serializeWindowReference_sibling_witness :
  serializeWindowReference 2 three_frames 1 (TWindow 3) = Return "p.f,2".
Proof.
  apply (serializeWindowReference_sibling three_frames 1 0 3 2 0);
    try reflexivity; try discriminate.
  split; [reflexivity|]. intros j Hj.
  destruct j as [|[|j]]; [discriminate|discriminate|lia].
Defined.

(** ** MessageSender: the three tiers *)

Ltac tier_solve :=
  cbn; rewrite ?app_nil_r, ?N.add_0_r;
  repeat split; intros; try reflexivity; try discriminate; auto.

Lemma proxyFallback_tier fuel b st message targetHost targetWindow name :
  exists (proxy : bool) src,
    effects (snd (proxyFallback fuel b st message targetHost targetWindow name))
    = (effects st ++ if proxy then [IframeAppended src] else [])%list
    /\ cacheBuster (snd (proxyFallback fuel b st message targetHost targetWindow name))
       = (cacheBuster st + if proxy then 1 else 0)%N
    /\ (proxy = true <->
        fst (proxyFallback fuel b st message targetHost targetWindow name)
        = Return tt).
Proof.
  unfold proxyFallback.
  destruct (serializeWindowReference fuel (hierarchy b) (self b) _) as [ref|e|].
  - destruct (encodeURIComponentOrThrow message) as [encoded|e|].
    + eexists true, _. tier_solve.
    + exists false, EmptyString. tier_solve.
    + exists false, EmptyString. tier_solve.
  - exists false, EmptyString. tier_solve.
  - exists false, EmptyString. tier_solve.
Qed.

Lemma directOrProxy_tier fuel b st message targetHost targetWindow name :
  exists (hook proxy : bool) src,
    effects (snd (directOrProxy fuel b st message targetHost targetWindow name))
    = (effects st
       ++ (if hook then [HookCall targetWindow message targetHost] else [])
       ++ if proxy then [IframeAppended src] else [])%list
    /\ cacheBuster (snd (directOrProxy fuel b st message targetHost targetWindow name))
       = (cacheBuster st + if proxy then 1 else 0)%N
    /\ (proxy = true ->
        fst (directOrProxy fuel b st message targetHost targetWindow name)
        = Return tt)
    /\ (fst (directOrProxy fuel b st message targetHost targetWindow name)
        = Return tt -> hook || proxy = true).
Proof.
  unfold directOrProxy.
  destruct (receiveMessageHookOf b targetWindow) as [| |run].
  1,2: destruct (proxyFallback_tier fuel b st message targetHost targetWindow name)
         as (proxy & src & He & Hc & Hr);
       exists false, proxy, src; cbn [app orb];
       split; [exact He|]; split; [exact Hc|]; split; apply Hr.
  destruct (run message targetHost).
  - destruct (proxyFallback_tier fuel b
                (record (HookCall targetWindow message targetHost) st)
                message targetHost targetWindow name)
      as (proxy & src & He & Hc & Hr).
    exists true, proxy, src. cbn [record effects cacheBuster] in *.
    rewrite He, Hc, <- app_assoc.
    split; [reflexivity|]. split; [reflexivity|].
    split; [apply Hr|reflexivity].
  - exists true, false, EmptyString. tier_solve.
Qed.

(** Whatever the arguments, a call of [$.postMessage] with a host and a
    target tries each transport at most once and in the order native
    call, delivery hook, proxy frame, each on the same message and the
    normalized host; the counter goes up by one exactly when a proxy
    frame is created; a frame is created only by a call that returns;
    and a call that returns has tried at least one transport. *)
Theorem postMessage_tiers fuel b st message host targetWindow name :
  exists (native hook proxy : bool) src,
    effects (snd (postMessage fuel b st message (Some host)
                              (Some targetWindow) name))
    = (effects st
       ++ (if native
           then [NativePost targetWindow message (getDomainFromUrl host)]
           else [])
       ++ (if hook
           then [HookCall targetWindow message (getDomainFromUrl host)]
           else [])
       ++ if proxy then [IframeAppended src] else [])%list
    /\ cacheBuster (snd (postMessage fuel b st message (Some host)
                                     (Some targetWindow) name))
       = (cacheBuster st + if proxy then 1 else 0)%N
    /\ (proxy = true ->
        fst (postMessage fuel b st message (Some host)
                         (Some targetWindow) name) = Return tt)
    /\ (fst (postMessage fuel b st message (Some host)
                         (Some targetWindow) name) = Return tt ->
        native || hook || proxy = true)
    /\ (native = true -> browserSupportsPostMessage b = true).
Proof.
  unfold postMessage.
  destruct (negb (truthy_string (Some host))).
  { exists false, false, false, EmptyString. tier_solve. }
  set (targetHost := getDomainFromUrl host).
  destruct (browserSupportsPostMessage b) eqn:Es.
  - destruct (nativePostMessage b targetWindow message targetHost) as [ex|].
    + destruct (otherFailure ex).
      * exists true, false, false, EmptyString. tier_solve.
      * destruct (directOrProxy_tier fuel b
                    (record (NativePost targetWindow message targetHost) st)
                    message targetHost targetWindow name)
          as (hook & proxy & src & He & Hc & Hp & Hr).
        exists true, hook, proxy, src. cbn [record effects cacheBuster] in *.
        rewrite He, Hc, <- app_assoc.
        split; [reflexivity|]. split; [reflexivity|].
        split; [exact Hp|]. split; reflexivity.
    + exists true, false, false, EmptyString. tier_solve.
  - destruct (directOrProxy_tier fuel b st message targetHost targetWindow name)
      as (hook & proxy & src & He & Hc & Hp & Hr).
    exists false, hook, proxy, src. cbn [app orb].
    split; [exact He|]. split; [exact Hc|]. split; [exact Hp|].
    split; [exact Hr|discriminate].
Qed.

(** ** The proxy relay: percent-encoding and the delivery hook *)

Lemma hexDigit_hexChar c :
  hexDigit (hexChar (code c / 16)) = Some (code c / 16)%N
  /\ hexDigit (hexChar (code c mod 16)) = Some (code c mod 16)%N.
Proof.
  destruct c as [[] [] [] [] [] [] [] []]; split; reflexivity.
Qed.

Lemma unreserved_plain c :
  unreserved c = true -> (code c =? 37)%N = false /\ (code c <? 128)%N = true.
Proof.
  destruct c as [[] [] [] [] [] [] [] []]; intros H;
    first [discriminate H | split; reflexivity].
Qed.

Lemma escape_free c :
  occurs "&" (String "%" (String (hexChar (code c / 16))
                            (String (hexChar (code c mod 16)) EmptyString)))
  = false.
Proof.
  destruct c as [[] [] [] [] [] [] [] []]; reflexivity.
Qed.

Lemma unreserved_not_amp c : unreserved c = true -> Ascii.eqb c "&" = false.
Proof.
  destruct c as [[] [] [] [] [] [] [] []]; intros H;
    first [discriminate H | reflexivity].
Qed.

Lemma encodeURIComponent_no_amp s : occurs "&" (encodeURIComponent s) = false.
Proof.
  induction s as [|c rest IH]; [reflexivity|].
  cbn [encodeURIComponent]. destruct (unreserved c) eqn:Eu.
  - cbn [occurs]. now rewrite (unreserved_not_amp c Eu), IH.
  - pose proof (escape_free c) as H. cbn [occurs] in *.
    rewrite orb_false_r in H. rewrite !orb_assoc in *.
    now rewrite H, IH.
Qed.

Lemma bytes_snoc octets B rest :
  bytes (octets ++ [B]) ++ rest = bytes octets ++ String (ascii_of_N B) rest.
Proof.
  unfold bytes. induction octets as [|o octets IH]; cbn; [reflexivity|].
  now rewrite IH.
Qed.

(** Decoding one escape written by [encodeURIComponent]. *)
Lemma decodeFrom_escape c rest need octets :
  decodeFrom (String "%" (String (hexChar (code c / 16))
                            (String (hexChar (code c mod 16)) rest)))
             need octets
  = match need with
    | O =>
        if (code c <? 128)%N
        then option_map (String c) (decodeFrom rest 0 [])
        else
          let n := leadingOnes (code c) in
          if Nat.eqb n 1 || Nat.ltb 4 n then None
          else decodeFrom rest (n - 1) [code c]
    | S more =>
        if isContinuation (code c) then
          match more with
          | O =>
              if validUtf8 (octets ++ [code c])
              then option_map (append (bytes (octets ++ [code c])))
                              (decodeFrom rest 0 [])
              else None
          | S _ => decodeFrom rest more (octets ++ [code c])
          end
        else None
    end.
Proof.
  cbn [decodeFrom].
  change (code "%" =? 37)%N with true. cbv iota.
  destruct (hexDigit_hexChar c) as [-> ->].
  replace (16 * (code c / 16) + code c mod 16)%N with (code c)
    by (apply N.div_mod; discriminate).
  unfold code at 3. rewrite ascii_N_embedding. reflexivity.
Qed.

Lemma leadingOnes_positive B : leadingOnes B <> 0.
Proof.
  unfold leadingOnes.
  repeat match goal with |- context [if ?b then _ else _] => destruct b end;
    discriminate.
Qed.

Lemma decode_encode_from s :
  forall need octets,
  wellFormedFrom s need octets = true ->
  decodeFrom (encodeURIComponent s) need octets
  = Some (match need with
          | O => s
          | S _ => bytes octets ++ s
          end).
Proof.
  induction s as [|c rest IH]; intros need octets Hwf.
  - destruct need; [reflexivity|discriminate].
  - cbn [encodeURIComponent]. destruct (unreserved c) eqn:Eu.
    + destruct (unreserved_plain c Eu) as [H37 H128].
      cbn [wellFormedFrom] in Hwf. cbn [decodeFrom]. rewrite H37.
      destruct need as [|more].
      * rewrite H128 in Hwf. now rewrite (IH 0 [] Hwf).
      * unfold isContinuation in Hwf.
        apply N.ltb_lt in H128.
        destruct (N.leb_spec 128 (code c)); [lia|discriminate].
    + rewrite decodeFrom_escape. cbn [wellFormedFrom] in Hwf.
      destruct need as [|more].
      * destruct (code c <? 128)%N.
        -- now rewrite (IH 0 [] Hwf).
        -- cbv zeta in *.
           pose proof (leadingOnes_positive (code c)) as Hpos.
           destruct (leadingOnes (code c)) as [|[|n]];
             [contradiction|discriminate|].
           destruct (Nat.eqb (S (S n)) 1 || Nat.ltb 4 (S (S n)));
             [discriminate|].
           change (S (S n) - 1) with (S n) in *.
           rewrite (IH (S n) [code c] Hwf).
           cbn. unfold code. now rewrite ascii_N_embedding.
      * destruct (isContinuation (code c)); [|discriminate].
        destruct more as [|more].
        -- apply andb_true_iff in Hwf as [Hv Hwf]. rewrite Hv.
           rewrite (IH 0 [] Hwf). cbn [option_map].
           rewrite bytes_snoc. unfold code. now rewrite ascii_N_embedding.
        -- rewrite (IH (S more) _ Hwf).
           rewrite bytes_snoc. unfold code. now rewrite ascii_N_embedding.
Qed.

(** What the sender percent-encodes into the proxy fragment (line 325)
    the delivery hook decodes back (line 377): handed the encoded form
    of a well-formed message, the hook triggers the [message] event with
    the message itself.  The encoded form never holds the [&] that
    separates the fields of the fragment. *)
Theorem relay_roundtrip p message origin :
  wellFormed message = true ->
  receiveMessageHook p (encodeURIComponent message) origin
  = Return (trigger_message p (Some message) origin)
  /\ occurs "&" (encodeURIComponent message) = false.
Proof.
  intros Hwf. split; [|apply encodeURIComponent_no_amp].
  unfold receiveMessageHook, decodeURIComponent.
  now rewrite (decode_encode_from message 0 [] Hwf).
Qed.

Lemma relay_roundtrip_witness :
  receiveMessageHook open_page (encodeURIComponent "100% & more")
                     (Some "http://www.foo.com")
  = Return (trigger_message open_page (Some "100% & more")
                            (Some "http://www.foo.com"))
  /\ occurs "&" (encodeURIComponent "100% & more") = false.
Proof.
  apply (relay_roundtrip open_page "100% & more" (Some "http://www.foo.com")).
  reflexivity.
Defined.

(** ** MessageReceiver: edge cases *)

(** An event without origin passes a string rule only when the rule is
    the wildcard. *)
Theorem isOriginMatch_no_origin (rule : string) :
  isOriginMatch (VString rule) None = (rule =? "*").
Proof.
  destruct (String.eqb_spec rule "*") as [->|Hne].
  - reflexivity.
  - destruct (isOriginMatch (VString rule) None) eqn:E; [|reflexivity].
    apply isOriginMatch_string in E as [E|E]; [discriminate|contradiction].
Qed.

Lemma dispatch_app entries1 entries2 event data origin :
  dispatch (entries1 ++ entries2) event data origin
  = (dispatch entries1 event data origin
     ++ dispatch entries2 event data origin)%list.
Proof.
  induction entries1 as [|[callback rule] rest IH]; [reflexivity|].
  cbn [app dispatch].
  destruct (listener callback rule event data origin); cbn; now rewrite IH.
Qed.

(** A registration leaves what the earlier callbacks receive as it was
    and adds its own callback after them: it is called for a message
    exactly when its rule, or the wildcard if the rule is missing or
    falsy, admits the origin.  Without a callback nothing is
    registered. *)
Theorem receiveMessage_appends p callback rule m :
  nativeDelivery (snd (receiveMessage p (Some callback) rule)) m
  = (nativeDelivery p m
     ++ if isOriginMatch (effectiveRule rule) (Some (n_origin m))
        then [(callback, mkDelivery (Some (n_data m)) (Some (n_origin m)))]
        else [])%list
  /\ (truthy rule = false ->
      nativeDelivery (snd (receiveMessage p (Some callback) rule)) m
      = (nativeDelivery p m
         ++ [(callback, mkDelivery (Some (n_data m)) (Some (n_origin m)))])%list)
  /\ receiveMessage p None rule = (Throw NoCallback, p).
Proof.
  assert (H : nativeDelivery (snd (receiveMessage p (Some callback) rule)) m
              = (nativeDelivery p m
                 ++ if isOriginMatch (effectiveRule rule) (Some (n_origin m))
                    then [(callback,
                           mkDelivery (Some (n_data m)) (Some (n_origin m)))]
                    else [])%list).
  { unfold nativeDelivery, receiveMessage, on_message. cbn [snd table].
    rewrite dispatch_app. f_equal.
    cbn [dispatch]. unfold listener, effectiveRule. cbn.
    now destruct (isOriginMatch _ _). }
  split; [exact H|]. split; [|reflexivity].
  intros Hf. rewrite H. unfold effectiveRule. rewrite Hf. cbn [negb].
  now rewrite isOriginMatch_wildcard.
Qed.

Lemma receiveMessage_appends_witness :
  nativeDelivery (snd (receiveMessage strict_page (Some 1) (VString "")))
                 (mkNative "hello" "http://www.bar.com")
  = (nativeDelivery strict_page (mkNative "hello" "http://www.bar.com")
     ++ [(1, mkDelivery (Some "hello") (Some "http://www.bar.com"))])%list.
Proof.
  apply (receiveMessage_appends strict_page 1 (VString "")
           (mkNative "hello" "http://www.bar.com")).
  reflexivity.
Defined.

(** What the delivery hook delivers when the message can be decoded:
    the decoded message, replaced by [undefined] when empty, and no
    origin, to the callbacks whose rule admits a missing origin. *)
Lemma receiveMessageHook_delivers p message decoded origin :
  decodeURIComponent message = Some decoded ->
  receiveMessageHook p message origin
  = Return (map (fun e => (fst e, mkDelivery (nonEmpty (Some decoded)) None))
                (filter (fun e => isOriginMatch (snd e) None) (table p))).
Proof.
  intros Hdec. unfold receiveMessageHook, trigger_message. rewrite Hdec.
  f_equal. induction (table p) as [|[callback rule] rest IH]; [reflexivity|].
  cbn [dispatch filter snd].
  unfold listener, reportedData, reportedOrigin, validatedOrigin, ownData,
    ownOrigin, nonEmpty in *.
  cbn [originalEvent ev_data ev_origin].
  change (truthy_string None) with false.
  destruct (truthy_string (Some decoded));
    cbn [negb];
    (destruct (isOriginMatch rule _); cbn [map fst]; now rewrite IH).
Qed.

(** An empty message handed to the delivery hook reaches the callbacks
    with [undefined] for data, not with the empty string, whatever the
    origin and the registrations are. *)
Theorem receiveMessageHook_empty_message p origin :
  exists calls,
    receiveMessageHook p EmptyString origin = Return calls
    /\ forall call, In call calls -> data (snd call) = None.
Proof.
  eexists. split.
  - apply (receiveMessageHook_delivers p EmptyString EmptyString origin).
    reflexivity.
  - intros call Hin. apply in_map_iff in Hin as (e & <- & _). reflexivity.
Qed.

(** ** MessageSender: a named target *)

(** When neither the native call nor the delivery hook delivers, a
    window name is given and the message is well-formed, so that
    [encodeURIComponent] accepts it, [$.postMessage] returns after
    creating the proxy frame for that name, whatever the window
    hierarchy and the target window are: the hierarchy is not
    searched. *)
Theorem postMessage_named fuel b st message host targetWindow name :
  truthy_string (Some host) = true ->
  name <> EmptyString ->
  wellFormed message = true ->
  nativeFallsThrough b targetWindow message (getDomainFromUrl host) = true ->
  hookFallsThrough b targetWindow message (getDomainFromUrl host) = true ->
  exists attempts,
    postMessage fuel b st message (Some host) (Some targetWindow) (Some name)
    = (Return tt,
       mkSender (cacheBuster st + 1)
         (effects st ++ attempts
          ++ [IframeAppended
                (getDomainFromUrl host ++ proxyPath
                 ++ string_of_N (now b) ++ string_of_N (cacheBuster st)
                 ++ "&" ++ (":" ++ name) ++ "&"
                 ++ getDomainFromUrl (location_href b) ++ "&"
                 ++ encodeURIComponent message)])%list)
    /\ forall e, In e attempts -> isIframe e = false.
Proof.
  intros Hhost Hname Hwf Hn Hh.
  assert (Hproxy : forall st0,
            proxyFallback fuel b st0 message (getDomainFromUrl host)
                          targetWindow (Some name)
            = (Return tt,
               mkSender (cacheBuster st0 + 1)
                 (effects st0
                  ++ [IframeAppended
                        (getDomainFromUrl host ++ proxyPath
                         ++ string_of_N (now b) ++ string_of_N (cacheBuster st0)
                         ++ "&" ++ (":" ++ name) ++ "&"
                         ++ getDomainFromUrl (location_href b) ++ "&"
                         ++ encodeURIComponent message)])%list)).
  { intros st0. unfold proxyFallback, encodeURIComponentOrThrow.
    assert (T : truthy_string (Some name) = true).
    { cbn. destruct (String.eqb_spec name ""); [contradiction|reflexivity]. }
    now rewrite T, Hwf. }
  unfold postMessage, nativeFallsThrough, hookFallsThrough, directOrProxy in *.
  rewrite Hhost. cbn [negb].
  set (targetHost := getDomainFromUrl host) in *.
  destruct (browserSupportsPostMessage b);
    [destruct (nativePostMessage b targetWindow message targetHost) as [ex|];
     [destruct (otherFailure ex); [discriminate|]|discriminate]|];
    (destruct (receiveMessageHookOf b targetWindow) as [| |run];
     [| |destruct (run message targetHost); [|discriminate]]);
    rewrite Hproxy; cbn [record effects cacheBuster];
    rewrite <- ?app_assoc; cbn [app];
    first
      [ exists []; split; [reflexivity|intros e []]
      | eexists [_]; split; [reflexivity|];
        intros e [<-|[]]; reflexivity
      | eexists [_; _]; split; [reflexivity|];
        intros e [<-|[<-|[]]]; reflexivity ].
Qed.

Lemma postMessage_named_witness :
  exists attempts,
    postMessage 0 legacy_browser fresh "hello" (Some "http://www.foo.com/x")
                (Some 7) (Some "popup")
    = (Return tt,
       mkSender (cacheBuster fresh + 1)
         (effects fresh ++ attempts
          ++ [IframeAppended
                (getDomainFromUrl "http://www.foo.com/x" ++ proxyPath
                 ++ string_of_N (now legacy_browser)
                 ++ string_of_N (cacheBuster fresh)
                 ++ "&" ++ (":" ++ "popup") ++ "&"
                 ++ getDomainFromUrl (location_href legacy_browser) ++ "&"
                 ++ encodeURIComponent "hello")])%list)
    /\ forall e, In e attempts -> isIframe e = false.
Proof.
  apply (postMessage_named 0 legacy_browser fresh "hello"
           "http://www.foo.com/x" 7 "popup");
    (reflexivity || discriminate).
Defined.

(** ** MessageSender: the freshness token *)

Lemma append_inv_head (x y z : string) : x ++ y = x ++ z -> y = z.
Proof.
  induction x as [|c x IH]; cbn; [easy|]. intros [= H]. now apply IH.
Qed.

Lemma digits_no_amp d : occurs "&" (NilEmpty.string_of_uint d) = false.
Proof. induction d; cbn; auto. Qed.

Lemma string_of_N_no_amp n : occurs "&" (string_of_N n) = false.
Proof.
  unfold string_of_N, NilZero.string_of_uint.
  destruct (N.to_uint n); try apply digits_no_amp. reflexivity.
Qed.

Lemma string_of_N_inj n m : string_of_N n = string_of_N m -> n = m.
Proof.
  unfold string_of_N. intros H.
  assert (Hnil : forall k, N.to_uint k <> Decimal.Nil).
  { intros k E. pose proof (DecimalN.Unsigned.of_to k) as Hk.
    rewrite E in Hk. cbn in Hk. subst k. discriminate. }
  apply DecimalN.Unsigned.to_uint_inj.
  pose proof (NilZero.usu _ (Hnil n)) as Hn.
  pose proof (NilZero.usu _ (Hnil m)) as Hm.
  rewrite H in Hn. rewrite Hn in Hm. now injection Hm.
Qed.

(** Two strings free of a character that are followed by it are equal
    when the whole strings are. *)
Lemma before_separator c s1 s2 x y :
  occurs c s1 = false -> occurs c s2 = false ->
  s1 ++ String c x = s2 ++ String c y -> s1 = s2.
Proof.
  revert s2. induction s1 as [|d s1 IH]; intros [|e s2] H1 H2 E; cbn in *.
  - reflexivity.
  - injection E as -> _. now rewrite Ascii.eqb_refl in H2.
  - injection E as -> _. now rewrite Ascii.eqb_refl in H1.
  - injection E as -> E.
    apply orb_false_iff in H1 as [_ H1]. apply orb_false_iff in H2 as [_ H2].
    f_equal. now apply IH.
Qed.

(** Two sends in a row that both create a proxy frame for the same
    host, within the same millisecond, create frames with different
    addresses: the counter in the fragment differs. *)
Theorem proxy_frames_fresh fuel1 fuel2 b st st' st'' message1 message2
                           targetHost target1 target2 name1 name2 :
  proxyFallback fuel1 b st message1 targetHost target1 name1 = (Return tt, st') ->
  proxyFallback fuel2 b st' message2 targetHost target2 name2 = (Return tt, st'') ->
  exists src1 src2,
    effects st'' = (effects st ++ [IframeAppended src1; IframeAppended src2])%list
    /\ cacheBuster st'' = (cacheBuster st + 2)%N
    /\ src1 <> src2.
Proof.
  unfold proxyFallback. intros H1 H2.
  destruct (serializeWindowReference fuel1 _ _ _) as [ref1| |]; try discriminate.
  destruct (encodeURIComponentOrThrow message1) as [encoded1| |];
    try discriminate.
  destruct (serializeWindowReference fuel2 _ _ _) as [ref2| |]; try discriminate.
  destruct (encodeURIComponentOrThrow message2) as [encoded2| |];
    try discriminate.
  injection H1 as <-. injection H2 as <-. cbn [effects cacheBuster].
  eexists _, _. split; [now rewrite <- app_assoc|]. split; [lia|].
  intros E.
  apply (append_inv_head targetHost) in E.
  apply (append_inv_head proxyPath) in E.
  apply (append_inv_head (string_of_N (now b))) in E.
  apply before_separator in E; try apply string_of_N_no_amp.
  apply string_of_N_inj in E. lia.
Qed.

Lemma proxy_frames_fresh_witness :
  exists src1 src2,
    effects (snd (proxyFallback 0 legacy_browser
                    (snd (proxyFallback 0 legacy_browser fresh "one"
                            "http://www.foo.com" 7 (Some "popup")))
                    "two" "http://www.foo.com" 7 (Some "popup")))
    = (effects fresh ++ [IframeAppended src1; IframeAppended src2])%list
    /\ cacheBuster (snd (proxyFallback 0 legacy_browser
                           (snd (proxyFallback 0 legacy_browser fresh "one"
                                   "http://www.foo.com" 7 (Some "popup")))
                           "two" "http://www.foo.com" 7 (Some "popup")))
       = (cacheBuster fresh + 2)%N
    /\ src1 <> src2.
Proof.
  apply (proxy_frames_fresh 0 0 legacy_browser fresh
           (snd (proxyFallback 0 legacy_browser fresh "one"
                   "http://www.foo.com" 7 (Some "popup")))
           (snd (proxyFallback 0 legacy_browser
                   (snd (proxyFallback 0 legacy_browser fresh "one"
                           "http://www.foo.com" 7 (Some "popup")))
                   "two" "http://www.foo.com" 7 (Some "popup")))
           "one" "two" "http://www.foo.com" 7 7 (Some "popup") (Some "popup"));
    reflexivity.
Defined.
